(** * Beam curvature and deflection: the trapezoidal pipeline of [src/main.py]

    The script computes, for a simply supported beam under a uniform load,
    bending moment -> curvature -> slope -> deflection over a one-dimensional
    mesh, integrating twice with a running trapezoidal sum and fixing the
    integration constant of the slope by a two-pass shooting step.

    The program is written once, over an abstract number type ([Arith]),
    and read at two instances:
    - [exact]: canonical rationals [Qc], the exact arithmetic the
      specification reasons in;
    - [binary64]: IEEE 754 double precision ([PrimFloat.float]), the numbers
      Python and NumPy actually compute with.

    Plotting ([plot_values]) and printing are output only and are not
    modelled; [main] returns the values it plots and prints. *)

From Stdlib Require Import ZArith QArith Qcanon Qround Qabs Lqa Lia List Bool Arith.
From Stdlib Require Import PrimFloat FloatOps SpecFloat Uint63.
Import ListNotations.

Set Implicit Arguments.

(** ** Outcomes of a Python computation *)

(** The exceptions the modelled code can raise. *)
Inductive exn : Type :=
| IndexError          (* an array indexed outside its bounds *)
| ZeroDivisionError   (* Python's own [/] on a zero divisor *)
| ValueError.         (* np.arange cannot compute a length *)

(** [Ok v]: the computation returned [v].  [Raise e]: it raised [e].
    [NotFinite]: NumPy's array division met a zero divisor; NumPy raises
    nothing there and carries on with [inf] or [nan], values that exact
    arithmetic does not have (only the [exact] instance produces this
    outcome, the [binary64] one returns the IEEE value). *)
Inductive result (A : Type) : Type :=
| Ok (a : A)
| Raise (e : exn)
| NotFinite.

Arguments Raise {A} e.
Arguments NotFinite {A}.

Definition bind {A B : Type} (c : result A) (k : A -> result B) : result B :=
  match c with
  | Ok a => k a
  | Raise e => Raise e
  | NotFinite => NotFinite
  end.

Declare Scope result_scope.
Delimit Scope result_scope with result.
Notation "x <- c ;; k" := (bind c (fun x => k))
  (at level 61, c at next level, right associativity) : result_scope.
Notation "' pat <- c ;; k" := (bind c (fun x => match x with pat => k end))
  (at level 61, pat pattern, c at next level, right associativity) : result_scope.
Open Scope result_scope.

(** [for i in idx: s = body(i, s)], stopping at the first exception. *)
Fixpoint for_each {S : Type} (idx : list nat) (body : nat -> S -> result S)
  (s : S) : result S :=
  match idx with
  | [] => Ok s
  | i :: rest => s' <- body i s ;; for_each rest body s'
  end.

(** [for i in range(n)]. *)
Definition for_range {S : Type} (n : nat) (body : nat -> S -> result S)
  (s : S) : result S :=
  for_each (seq 0 n) body s.

(** [map] for a function that may fail, left to right. *)
Fixpoint map_result {A B : Type} (f : A -> result B) (l : list A)
  : result (list B) :=
  match l with
  | [] => Ok []
  | a :: l' => b <- f a ;; bs <- map_result f l' ;; Ok (b :: bs)
  end.

(** ** The arithmetic the script is written over *)

Class Arith (num : Type) : Type := {
  (** a numeric literal of the source, by its decimal value *)
  lit : Q -> num;
  plus : num -> num -> num;
  minus : num -> num -> num;
  times : num -> num -> num;
  (** [/] where the divisor is a nonzero literal of the source *)
  divide : num -> num -> num;
  negate : num -> num;
  absolute : num -> num;
  (** [<], for the statements about the printed values *)
  less : num -> num -> bool;
  (** the ceiling np.arange takes to size its output *)
  ceiling : num -> result Z;
  (** [/] between Python scalars: raises on a zero divisor *)
  py_truediv : num -> num -> result num;
  (** [/] of NumPy (array by scalar, or a NumPy scalar by a scalar):
      never raises *)
  np_true_divide : num -> num -> result num
}.

Declare Scope num_scope.
Delimit Scope num_scope with num.
Infix "+" := plus : num_scope.
Infix "-" := minus : num_scope.
Infix "*" := times : num_scope.
Infix "/" := divide : num_scope.
Notation "- x" := (negate x) : num_scope.

Section Program.
Context {num : Type} `{Arith num}.
Local Open Scope num_scope.

(** [x ** n] for a literal exponent [n], by repeated multiplication (the
    powers the script takes, [10**3], [10**9], [0.5**3] and [length**4],
    are exact in binary64 either way).  Away from the script's constants
    the binary64 reading is not Python's: a product that overflows is
    [inf] here, where Python's float power raises [OverflowError], and
    the rounding of a product can differ from that of the C library's
    power. *)
Fixpoint pow (x : num) (n : nat) : num :=
  match n with
  | O => lit 1
  | S n' => x * pow x n'
  end.

(** An index of [range], as a number. *)
Definition of_nat (i : nat) : num := lit (inject_Z (Z.of_nat i)).

(** [a[i]] for [0 <= i]. *)
Definition index (a : list num) (i : nat) : result num :=
  match nth_error a i with
  | Some v => Ok v
  | None => Raise IndexError
  end.

(** [np.arange(start, stop, step)]: [ceil((stop - start) / step)] values
    (none when that is not positive), the [i]-th being [start + i*delta]
    with [delta = (start + step) - start], as NumPy's fill loop computes
    them.  NumPy's limit on the size of an array is not modelled. *)
Definition np_arange (start stop step : num) : result (list num) :=
  q <- py_truediv (stop - start) step ;;
  len <- ceiling q ;;
  let delta := (start + step) - start in
  Ok (map (fun i => start + of_nat i * delta) (seq 0 (Z.to_nat len))).

(** [np.append(a, v)]. *)
Definition np_append (a : list num) (v : num) : list num := a ++ [v].

(** main.py, line 27: the moment at [x_pos]. *)
Definition moment (load length x_pos : num) : num :=
  (x_pos * (load * length) / lit 2) - (load * x_pos * (x_pos / lit 2)).

(** main.py, lines 23-29. *)
Definition get_bending_moments (x_axis : list num) (load length : num)
  : result (list num) :=
  for_range (List.length x_axis)
    (fun i bending_moment =>
       x_pos <- index x_axis i ;;
       Ok (np_append bending_moment (moment load length x_pos)))
    [].

(** main.py, lines 32-34: the array divided by the scalar
    [modulus * inertia], element by element. *)
Definition get_curvatures (bending_moment_list : list num)
  (modulus inertia : num) : result (list num) :=
  map_result (fun m => np_true_divide m (modulus * inertia))
    bending_moment_list.

(** main.py, lines 37-45.  The loop state is the pair of the running
    [slope] and [slope_list]; [slope] is unbound before the first
    iteration, which assigns it before any read, so its initial value
    here is never used. *)
Definition get_slopes (dx : num) (x_axis curvature_list : list num)
  (slope_init : num) : result (list num) :=
  st <- for_range (List.length x_axis)
    (fun i '(slope, slope_list) =>
       slope <- (if Nat.eqb i 0 then Ok slope_init
                 else k_i <- index curvature_list i ;;
                      k_p <- index curvature_list (i - 1) ;;
                      Ok (slope + (dx / lit 2) * (k_i + k_p))) ;;
       Ok (slope, np_append slope_list slope))
    (lit 0, []) ;;
  Ok (snd st).

(** main.py, lines 48-56. *)
Definition get_deflections (dx : num) (x_axis slope_list : list num)
  : result (list num) :=
  st <- for_range (List.length x_axis)
    (fun i '(deflection, deflection_list) =>
       deflection <- (if Nat.eqb i 0 then Ok (lit 0)
                      else s_i <- index slope_list i ;;
                           s_p <- index slope_list (i - 1) ;;
                           Ok (deflection + (dx / lit 2) * (s_i + s_p))) ;;
       Ok (deflection, np_append deflection_list deflection))
    (lit 0, []) ;;
  Ok (snd st).

(** What a run displays: the four plotted sequences over the mesh and the
    three printed numbers. *)
Record report : Type := {
  mesh : list num;
  moments : list num;
  curvatures : list num;
  slopes : list num;
  deflections : list num;
  mid_deflection : num;
  mid_deflection_theor : num;
  rel_error : num
}.

(** main.py, lines 66-103, with the five constants of lines 60-64 as
    parameters.  [int(len(l) / 2)] is [len l / 2] on naturals. *)
Definition pipeline (load length dx inertia modulus : num) : result report :=
  (* Space mesh *)
  x_axis <- np_arange (lit 0) length dx ;;
  let x_axis := np_append x_axis length in
  (* Bending moments on a simply supported beam *)
  bending_moment_list <- get_bending_moments x_axis load length ;;
  (* Curvatures *)
  curvature_list <- get_curvatures bending_moment_list modulus inertia ;;
  (* Slopes from an arbitrary (incorrect) initial slope *)
  let slope_init_0 := lit 0 in
  slope_list <- get_slopes dx x_axis curvature_list slope_init_0 ;;
  slope_midspan <- index slope_list (List.length slope_list / 2) ;;
  (* Slopes from a correct initial slope *)
  let slope_error := lit 0 - slope_midspan in
  let slope_init_1 := slope_init_0 + slope_error in
  slope_list <- get_slopes dx x_axis curvature_list slope_init_1 ;;
  (* Deflection *)
  deflection_list <- get_deflections dx x_axis slope_list ;;
  (* Evaluate the deflection at mid-span *)
  deflection_mid <-
    index deflection_list (List.length deflection_list / 2) ;;
  deflection_mid_theor <-
    py_truediv (- (lit 5 / lit 384) * (load * pow length 4))
               (modulus * inertia) ;;
  error <- np_true_divide (absolute (deflection_mid_theor - deflection_mid))
                          deflection_mid_theor ;;
  Ok {| mesh := x_axis;
        moments := bending_moment_list;
        curvatures := curvature_list;
        slopes := slope_list;
        deflections := deflection_list;
        mid_deflection := deflection_mid;
        mid_deflection_theor := deflection_mid_theor;
        rel_error := error |}.

(** main.py, lines 59-64: the constants of the run. *)
Definition main : result report :=
  let load := lit 10 * pow (lit 10) 3 in
  let length := lit 5 in
  let dx := lit 0.1 in
  let inertia := (lit 1 / lit 12) * lit 0.3 * pow (lit 0.5) 3 in
  let modulus := lit 30 * pow (lit 10) 9 in
  pipeline load length dx inertia modulus.

End Program.

Arguments report num : clear implicits.

(** ** Exact arithmetic: canonical rationals *)

(** In exact arithmetic a quotient by zero has no value: NumPy's division
    is then [NotFinite], Python's raises. *)
Definition Qc_np_true_divide (a b : Qc) : result Qc :=
  if Qc_eq_bool b (Q2Qc 0) then NotFinite else Ok (a / b)%Qc.

Definition Qc_py_truediv (a b : Qc) : result Qc :=
  if Qc_eq_bool b (Q2Qc 0) then Raise ZeroDivisionError else Ok (a / b)%Qc.

Definition Qc_less (a b : Qc) : bool :=
  match (a ?= b)%Qc with Lt => true | _ => false end.

#[global] Instance exact : Arith Qc := {
  lit := Q2Qc;
  plus := Qcplus;
  minus := Qcminus;
  times := Qcmult;
  divide := Qcdiv;
  negate := Qcopp;
  absolute := fun q => Q2Qc (Qabs q);
  less := Qc_less;
  ceiling := fun q => Ok (Qceiling q);
  py_truediv := Qc_py_truediv;
  np_true_divide := Qc_np_true_divide
}.

(** ** IEEE 754 binary64 *)

Module Binary64.

(** An integer of magnitude below 2^63 as a double (exact below 2^53). *)
Definition of_Z (z : Z) : float :=
  match z with
  | Z0 => PrimFloat.zero
  | Zpos _ => PrimFloat.of_uint63 (Uint63.of_Z z)
  | Zneg p => PrimFloat.opp (PrimFloat.of_uint63 (Uint63.of_Z (Zpos p)))
  end.

(** The double nearest to a decimal literal [n/d]: the correctly rounded
    quotient of two exactly represented integers. *)
Definition of_Q (q : Q) : float :=
  PrimFloat.div (of_Z (Qnum q)) (of_Z (Zpos (Qden q))).

(** [ceil] of a finite double, as an integer; NumPy raises on [nan] and
    on infinities. *)
Definition ceil (f : float) : result Z :=
  match Prim2SF f with
  | S754_zero _ => Ok 0%Z
  | S754_infinity _ => Raise ValueError
  | S754_nan => Raise ValueError
  | S754_finite s m e =>
      let v := if s then Zneg m else Zpos m in
      Ok (if (0 <=? e)%Z then (v * 2 ^ e)%Z
          else (- ((- v) / 2 ^ (- e)))%Z)
  end.

(** Python's float division: a zero divisor ([0.0] or [-0.0]) raises. *)
Definition py_div (a b : float) : result float :=
  if PrimFloat.is_zero b then Raise ZeroDivisionError
  else Ok (PrimFloat.div a b).

(** NumPy's division: the IEEE quotient, [inf] or [nan] over a zero
    divisor (NumPy then issues a RuntimeWarning and carries on). *)
Definition np_div (a b : float) : result float := Ok (PrimFloat.div a b).

#[global] Instance arith : Arith float | 10 := {
  lit := of_Q;
  plus := PrimFloat.add;
  minus := PrimFloat.sub;
  times := PrimFloat.mul;
  divide := PrimFloat.div;
  negate := PrimFloat.opp;
  absolute := PrimFloat.abs;
  less := PrimFloat.ltb;
  ceiling := ceil;
  py_truediv := py_div;
  np_true_divide := np_div
}.

End Binary64.

(** ** Specification-side definitions *)

Section Specification.
Context {num : Type} `{Arith num}.
Local Open Scope num_scope.

(** The running trapezoidal sum both integrators compute: the value at
    index [i], from the seed, the half step [h] and the integrand [ys]. *)
Fixpoint running (h : num) (ys : list num) (seed : num) (i : nat) : num :=
  match i with
  | O => seed
  | S j => running h ys seed j
           + h * (nth (S j) ys (lit 0) + nth j ys (lit 0))
  end.

(** The loop body of [get_slopes] and [get_deflections]. *)
Definition running_body (h : num) (ys : list num) (seed : num)
  (i : nat) (st : num * list num) : result (num * list num) :=
  let '(acc, out) := st in
  acc <- (if Nat.eqb i 0 then Ok seed
          else y_i <- index ys i ;;
               y_p <- index ys (i - 1) ;;
               Ok (acc + h * (y_i + y_p))) ;;
  Ok (acc, np_append out acc).

End Specification.

Section ClaimedRecurrence.
Local Open Scope num_scope.

(** The recurrence of the specification's section 4.4, read with the
    local mesh step [x_i - x_(i-1)]: [theta_0 = seed] and, for [i >= 1],
    [theta_i = theta_(i-1) + (x_i - x_(i-1))/2 * (kappa_i + kappa_(i-1))]. *)
Definition local_step_recurrence (x kappa : list Qc) (seed : Qc)
  (theta : list Qc) : Prop :=
  nth_error theta 0 = Some seed
  /\ forall i : nat, (1 <= i < List.length x)%nat ->
       nth i theta (lit 0)
       = nth (i - 1) theta (lit 0)
         + (nth i x (lit 0) - nth (i - 1) x (lit 0)) / lit 2
           * (nth i kappa (lit 0) + nth (i - 1) kappa (lit 0)).

End ClaimedRecurrence.

(** * Properties *)

(** ** The loops, for every arithmetic *)

Section Loops.
Context {num : Type} `{Arith num}.
Local Open Scope num_scope.

Lemma index_nth (a : list num) (i : nat) (d : num) :
  (i < List.length a)%nat -> index a i = Ok (nth i a d).
Proof.
  intros Hi. unfold index.
  destruct (nth_error a i) as [v|] eqn:E.
  - f_equal. symmetry. now apply nth_error_nth.
  - apply nth_error_None in E. lia.
Qed.

Lemma index_out (a : list num) (i : nat) :
  (List.length a <= i)%nat -> index a i = Raise IndexError.
Proof.
  intros Hi. unfold index.
  now apply nth_error_None in Hi; rewrite Hi.
Qed.

Lemma index_Ok (a : list num) (i : nat) (v : num) :
  index a i = Ok v <-> nth_error a i = Some v.
Proof.
  unfold index. destruct (nth_error a i); split; congruence.
Qed.

Lemma map_seq_nth {B : Type} (f : num -> B) (l : list num) (d : num) :
  map (fun i => f (nth i l d)) (seq 0 (List.length l)) = map f l.
Proof.
  apply nth_ext with (d := f d) (d' := f d).
  - now rewrite !length_map, length_seq.
  - intros n Hn. rewrite length_map, length_seq in Hn.
    rewrite map_nth.
    rewrite nth_indep with (d' := (fun i => f (nth i l d)) 0%nat)
      by now rewrite length_map, length_seq.
    rewrite map_nth with (f := fun i => f (nth i l d)).
    now rewrite seq_nth.
Qed.

(** The moment loop appends one moment per mesh point. *)
Lemma moments_loop (x_axis : list num) (load length : num) (d : num) :
  forall (m k : nat) (acc : list num),
    (k + m <= List.length x_axis)%nat ->
    for_each (seq k m)
      (fun i bending_moment =>
         x_pos <- index x_axis i ;;
         Ok (np_append bending_moment (moment load length x_pos)))
      acc
    = Ok (acc ++ map (fun i => moment load length (nth i x_axis d)) (seq k m)).
Proof.
  induction m as [|m IH]; intros k acc Hk; cbn [seq for_each map].
  - now rewrite app_nil_r.
  - rewrite index_nth with (d := d) by lia. cbn [bind].
    rewrite IH by lia. unfold np_append.
    now rewrite <- app_assoc.
Qed.

Lemma get_bending_moments_map (x_axis : list num) (load length : num) :
  get_bending_moments x_axis load length
  = Ok (map (moment load length) x_axis).
Proof.
  unfold get_bending_moments, for_range.
  rewrite moments_loop with (d := lit 0) by lia.
  cbn [app]. f_equal. apply map_seq_nth.
Qed.

Lemma running_loop (h : num) (ys : list num) (seed : num) :
  forall (m k : nat) (out : list num),
    (S k + m <= List.length ys)%nat ->
    for_each (seq (S k) m) (running_body h ys seed)
      (running h ys seed k, out)
    = Ok (running h ys seed (k + m),
          out ++ map (running h ys seed) (seq (S k) m)).
Proof.
  induction m as [|m IH]; intros k out Hk; cbn [seq for_each map].
  - now rewrite app_nil_r, Nat.add_0_r.
  - unfold running_body at 1. cbn [Nat.eqb].
    rewrite index_nth with (d := lit 0) by lia.
    replace (S k - 1)%nat with k by lia.
    rewrite index_nth with (d := lit 0) by lia.
    cbn [bind].
    change (running h ys seed k + h * (nth (S k) ys (lit 0) + nth k ys (lit 0)))
      with (running h ys seed (S k)).
    rewrite IH by lia. unfold np_append.
    rewrite <- app_assoc. cbn [app].
    now replace (k + S m)%nat with (S k + m)%nat by lia.
Qed.

(** The integrator returns when the integrand covers the mesh (or the
    mesh has at most one point, where the integrand is never read). *)
Lemma running_range (h : num) (ys : list num) (seed d0 : num) (n : nat) :
  (n <= List.length ys \/ n <= 1)%nat ->
  (st <- for_range n (running_body h ys seed) (d0, []) ;; Ok (snd st))
  = Ok (map (running h ys seed) (seq 0 n)).
Proof.
  intros Hn. unfold for_range.
  destruct n as [|n]; [reflexivity|].
  cbn [seq for_each]. unfold running_body at 1. cbn [Nat.eqb bind].
  destruct n as [|n]; [reflexivity|].
  change (seed, np_append [] seed) with (running h ys seed 0, [seed]).
  rewrite running_loop by lia.
  reflexivity.
Qed.

(** Past the end of the integrand the integrator raises [IndexError]. *)
Lemma running_loop_raise (h : num) (ys : list num) (seed : num) :
  forall (m k : nat) (st : num * list num),
    (1 <= k)%nat -> (List.length ys < k + m)%nat -> (1 <= m)%nat ->
    for_each (seq k m) (running_body h ys seed) st = Raise IndexError.
Proof.
  induction m as [|m IH]; intros k [acc out] Hk Hlen Hm; [lia|].
  cbn [seq for_each]. unfold running_body at 1.
  destruct (Nat.eqb_spec k 0) as [->|_]; [lia|].
  destruct (Nat.lt_ge_cases k (List.length ys)) as [Hin|Hin].
  - rewrite index_nth with (d := lit 0) by lia.
    rewrite index_nth with (d := lit 0) by lia.
    cbn [bind]. apply IH; lia.
  - now rewrite index_out by lia.
Qed.

Lemma get_slopes_running (dx : num) (x_axis curvature_list : list num)
  (slope_init : num) :
  (List.length x_axis <= List.length curvature_list
   \/ List.length x_axis <= 1)%nat ->
  get_slopes dx x_axis curvature_list slope_init
  = Ok (map (running (dx / lit 2) curvature_list slope_init)
            (seq 0 (List.length x_axis))).
Proof.
  intros Hn.
  change (get_slopes dx x_axis curvature_list slope_init)
    with (st <- for_range (List.length x_axis)
                  (running_body (dx / lit 2) curvature_list slope_init)
                  (lit 0, []) ;; Ok (snd st)).
  now rewrite running_range.
Qed.

Lemma get_slopes_raise (dx : num) (x_axis curvature_list : list num)
  (slope_init : num) :
  (List.length curvature_list < List.length x_axis)%nat ->
  (2 <= List.length x_axis)%nat ->
  get_slopes dx x_axis curvature_list slope_init = Raise IndexError.
Proof.
  intros Hlen Hn.
  change (get_slopes dx x_axis curvature_list slope_init)
    with (st <- for_range (List.length x_axis)
                  (running_body (dx / lit 2) curvature_list slope_init)
                  (lit 0, []) ;; Ok (snd st)).
  unfold for_range.
  destruct (List.length x_axis) as [|n]; [lia|].
  cbn [seq for_each]. unfold running_body at 1. cbn [Nat.eqb bind].
  now rewrite running_loop_raise by lia.
Qed.

Lemma get_deflections_running (dx : num) (x_axis slope_list : list num) :
  (List.length x_axis <= List.length slope_list
   \/ List.length x_axis <= 1)%nat ->
  get_deflections dx x_axis slope_list
  = Ok (map (running (dx / lit 2) slope_list (lit 0))
            (seq 0 (List.length x_axis))).
Proof.
  intros Hn.
  change (get_deflections dx x_axis slope_list)
    with (st <- for_range (List.length x_axis)
                  (running_body (dx / lit 2) slope_list (lit 0))
                  (lit 0, []) ;; Ok (snd st)).
  now rewrite running_range.
Qed.

Lemma get_deflections_raise (dx : num) (x_axis slope_list : list num) :
  (List.length slope_list < List.length x_axis)%nat ->
  (2 <= List.length x_axis)%nat ->
  get_deflections dx x_axis slope_list = Raise IndexError.
Proof.
  intros Hlen Hn.
  change (get_deflections dx x_axis slope_list)
    with (st <- for_range (List.length x_axis)
                  (running_body (dx / lit 2) slope_list (lit 0))
                  (lit 0, []) ;; Ok (snd st)).
  unfold for_range.
  destruct (List.length x_axis) as [|n]; [lia|].
  cbn [seq for_each]. unfold running_body at 1. cbn [Nat.eqb bind].
  now rewrite running_loop_raise by lia.
Qed.

Lemma nth_map_seq {B : Type} (g : nat -> B) (n i : nat) (d : B) :
  (i < n)%nat -> nth i (map g (seq 0 n)) d = g i.
Proof.
  intros Hi.
  rewrite nth_indep with (d' := g 0%nat) by now rewrite length_map, length_seq.
  rewrite map_nth. now rewrite seq_nth.
Qed.

Lemma nth_error_map_seq {B : Type} (g : nat -> B) (n i : nat) :
  (i < n)%nat -> nth_error (map g (seq 0 n)) i = Some (g i).
Proof.
  intros Hi.
  rewrite nth_error_nth' with (d := g 0%nat)
    by now rewrite length_map, length_seq.
  now rewrite nth_map_seq.
Qed.

Lemma map_result_length {A B : Type} (f : A -> result B) :
  forall (l : list A) (l' : list B),
    map_result f l = Ok l' -> List.length l' = List.length l.
Proof.
  induction l as [|a l IH]; intros l' E; cbn in E.
  - now injection E as <-.
  - destruct (f a) as [b| |]; cbn in E; try discriminate.
    destruct (map_result f l) as [bs| |]; cbn in E; try discriminate.
    injection E as <-. cbn. f_equal. now apply IH.
Qed.

(** An integrator's result, when it returns one. *)
Lemma get_slopes_cases (dx : num) (x_axis curvature_list : list num)
  (slope_init : num) (l : list num) :
  get_slopes dx x_axis curvature_list slope_init = Ok l ->
  (List.length x_axis <= List.length curvature_list
   \/ List.length x_axis <= 1)%nat
  /\ l = map (running (dx / lit 2) curvature_list slope_init)
             (seq 0 (List.length x_axis)).
Proof.
  intros E.
  destruct (Nat.le_gt_cases (List.length x_axis) (List.length curvature_list))
    as [Hle|Hgt].
  - rewrite get_slopes_running in E by now left.
    split; [now left | congruence].
  - destruct (Nat.le_gt_cases (List.length x_axis) 1) as [H1|H1].
    + rewrite get_slopes_running in E by now right.
      split; [now right | congruence].
    + rewrite get_slopes_raise in E by lia. discriminate.
Qed.

Lemma get_deflections_cases (dx : num) (x_axis slope_list l : list num) :
  get_deflections dx x_axis slope_list = Ok l ->
  (List.length x_axis <= List.length slope_list
   \/ List.length x_axis <= 1)%nat
  /\ l = map (running (dx / lit 2) slope_list (lit 0))
             (seq 0 (List.length x_axis)).
Proof.
  intros E.
  destruct (Nat.le_gt_cases (List.length x_axis) (List.length slope_list))
    as [Hle|Hgt].
  - rewrite get_deflections_running in E by now left.
    split; [now left | congruence].
  - destruct (Nat.le_gt_cases (List.length x_axis) 1) as [H1|H1].
    + rewrite get_deflections_running in E by now right.
      split; [now right | congruence].
    + rewrite get_deflections_raise in E by lia. discriminate.
Qed.


Lemma bind_Ok_inv {A B : Type} (c : result A) (k : A -> result B) (b : B) :
  bind c k = Ok b -> exists a : A, c = Ok a /\ k a = Ok b.
Proof.
  destruct c as [a| |]; cbn; try discriminate. intros E. now exists a.
Qed.

(** The stages a returning run went through. *)
Lemma pipeline_stages (load length dx inertia modulus : num)
  (r : report num) :
  pipeline load length dx inertia modulus = Ok r ->
  exists (x0 slope_list0 : list num) (slope_midspan : num),
    np_arange (lit 0) length dx = Ok x0
    /\ mesh r = np_append x0 length
    /\ get_bending_moments (mesh r) load length = Ok (moments r)
    /\ get_curvatures (moments r) modulus inertia = Ok (curvatures r)
    /\ get_slopes dx (mesh r) (curvatures r) (lit 0) = Ok slope_list0
    /\ index slope_list0 (List.length slope_list0 / 2) = Ok slope_midspan
    /\ get_slopes dx (mesh r) (curvatures r)
         (lit 0 + (lit 0 - slope_midspan)) = Ok (slopes r)
    /\ get_deflections dx (mesh r) (slopes r) = Ok (deflections r)
    /\ index (deflections r) (List.length (deflections r) / 2)
       = Ok (mid_deflection r)
    /\ py_truediv (- (lit 5 / lit 384) * (load * pow length 4))
         (modulus * inertia) = Ok (mid_deflection_theor r)
    /\ np_true_divide
         (absolute (mid_deflection_theor r - mid_deflection r))
         (mid_deflection_theor r) = Ok (rel_error r).
Proof.
  unfold pipeline. intros E.
  apply bind_Ok_inv in E as (x0 & Hx0 & E).
  apply bind_Ok_inv in E as (bm & Hbm & E).
  apply bind_Ok_inv in E as (c & Hc & E).
  apply bind_Ok_inv in E as (sl0 & Hsl0 & E).
  apply bind_Ok_inv in E as (sm & Hsm & E).
  apply bind_Ok_inv in E as (sl & Hsl & E).
  apply bind_Ok_inv in E as (dl & Hdl & E).
  apply bind_Ok_inv in E as (dm & Hdm & E).
  apply bind_Ok_inv in E as (dt & Hdt & E).
  apply bind_Ok_inv in E as (er & Her & E).
  injection E as <-. cbn [mesh moments curvatures slopes deflections
    mid_deflection mid_deflection_theor rel_error].
  exists x0, sl0, sm. repeat split; assumption.
Qed.

End Loops.

(** ** Exact arithmetic *)

(** *** From [Qc] to [Q], where [lra] and [field] decide *)

Lemma this_lit (q : Q) : (this (Q2Qc q) == q)%Q.
Proof. cbn. apply Qred_correct. Qed.

Lemma this_plus (a b : Qc) : (this (a + b)%Qc == this a + this b)%Q.
Proof. apply this_lit. Qed.

Lemma this_mult (a b : Qc) : (this (a * b)%Qc == this a * this b)%Q.
Proof. apply this_lit. Qed.

Lemma this_opp (a : Qc) : (this (- a)%Qc == - this a)%Q.
Proof. apply this_lit. Qed.

Lemma this_minus (a b : Qc) : (this (a - b)%Qc == this a - this b)%Q.
Proof. unfold Qcminus. now rewrite this_plus, this_opp. Qed.

Lemma this_inv (a : Qc) : (this (/ a)%Qc == / this a)%Q.
Proof. apply this_lit. Qed.

Lemma this_div (a b : Qc) : (this (a / b)%Qc == this a / this b)%Q.
Proof. unfold Qcdiv. now rewrite this_mult, this_inv. Qed.

Lemma Qc_eq_Q (a b : Qc) : a = b <-> (this a == this b)%Q.
Proof. split; [now intros -> | apply Qc_is_canon]. Qed.

(** Turns a goal over [Qc] into the same goal over [Q]. *)
Ltac to_Q :=
  unfold Qcle, Qclt in *;
  rewrite ?Qc_eq_Q;
  repeat progress
    rewrite ?this_plus, ?this_minus, ?this_mult, ?this_div, ?this_opp,
            ?this_inv, ?this_lit.

Ltac to_Q_in H :=
  unfold Qcle, Qclt in H;
  try rewrite Qc_eq_Q in H;
  repeat progress
    rewrite ?this_plus, ?this_minus, ?this_mult, ?this_div, ?this_opp,
            ?this_inv, ?this_lit in H.

(** Unfolds the operations of the [exact] instance to those of [Qc]. *)
Ltac exact_ops :=
  cbn [lit plus minus times divide negate absolute exact pow] in *.

(** Lists of canonical rationals are equal when their fractions are:
    equalities between computed sequences are settled by evaluation. *)
Lemma Qc_list_eq (l l' : list Qc) : map this l = map this l' -> l = l'.
Proof.
  revert l'. induction l as [|a l IH]; intros [|b l'] E; try discriminate.
  - reflexivity.
  - cbn in E. injection E as E1 E2. f_equal.
    + now apply Qc_decomp.
    + now apply IH.
Qed.

Lemma Ok_Qc_list_eq (r : result (list Qc)) (l : list Qc) :
  match r with Ok l0 => map this l0 = map this l | _ => False end ->
  r = Ok l.
Proof.
  destruct r as [l0| |]; try contradiction.
  intros E. f_equal. now apply Qc_list_eq.
Qed.

Lemma Ok_Qc_eq (r : result Qc) (v : Qc) :
  match r with Ok v0 => this v0 = this v | _ => False end -> r = Ok v.
Proof.
  destruct r as [v0| |]; try contradiction.
  intros E. f_equal. now apply Qc_decomp.
Qed.

Lemma Some_Qc_eq (r : option Qc) (v : Qc) :
  match r with Some v0 => this v0 = this v | None => False end -> r = Some v.
Proof.
  destruct r as [v0|]; try contradiction.
  intros E. f_equal. now apply Qc_decomp.
Qed.

(** Evaluates a closed computation over [Qc]. *)
Ltac qc_eval :=
  first [ apply Ok_Qc_list_eq | apply Ok_Qc_eq | apply Some_Qc_eq
        | apply Qc_list_eq | apply Qc_decomp ];
  vm_compute; reflexivity.

Lemma Qsquare_nonneg (y : Q) : (0 <= y * y)%Q.
Proof. nra. Qed.

Section Exact.
Local Open Scope num_scope.

(** Changing the seed shifts every running sum by the change. *)
Lemma running_shift (h : Qc) (ys : list Qc) (s t : Qc) (i : nat) :
  running h ys s i = (s - t) + running h ys t i.
Proof.
  induction i as [|i IH]; cbn [running].
  - exact_ops. ring.
  - rewrite IH. exact_ops. ring.
Qed.



(** The gap between the moment and [w*L^2/8] is a square. *)
Lemma moment_gap (w L x : Q) :
  (w * (L * (L * 1)) / 8 - (x * (w * L) / 2 - (w * x * (x / 2)))
   == (w * (1#2)) * ((x - L * (1#2)) * (x - L * (1#2))))%Q.
Proof. field. Qed.

Lemma moment_le_max (w L x : Qc) :
  (lit 0 < w)%Qc -> (moment w L x <= w * pow L 2 / lit 8)%Qc.
Proof.
  intros Hw. unfold moment. exact_ops. to_Q. to_Q_in Hw.
  pose proof (moment_gap w L x) as G.
  pose proof (Qsquare_nonneg (x - L * (1#2))) as Hsq.
  assert (H2 : (0 <= (w * (1#2)) * ((x - L * (1#2)) * (x - L * (1#2))))%Q)
    by (apply Qmult_le_0_compat; lra).
  lra.
Qed.

Lemma moment_eq_max_iff (w L x : Qc) :
  (lit 0 < w)%Qc ->
  moment w L x = w * pow L 2 / lit 8 <-> x = L / lit 2.
Proof.
  intros Hw. unfold moment. exact_ops. to_Q. to_Q_in Hw.
  pose proof (moment_gap w L x) as G.
  assert (Hd : (L / 2 == L * (1#2))%Q) by field.
  split; intros E.
  - assert (H2 : ((w * (1#2)) * ((x - L * (1#2)) * (x - L * (1#2))) == 0)%Q)
      by lra.
    apply Qmult_integral in H2. destruct H2 as [H2|H2]; [lra|].
    apply Qmult_integral in H2. destruct H2; lra.
  - rewrite E in G. rewrite E.
    assert (H2 : ((w * (1#2)) * ((L / 2 - L * (1#2)) * (L / 2 - L * (1#2)))
                  == 0)%Q) by field.
    lra.
Qed.


(** *** The mesh *)

Lemma this_of_nat (i : nat) :
  (this (of_nat i) == inject_Z (Z.of_nat i))%Q.
Proof. unfold of_nat. exact_ops. apply this_lit. Qed.

(** The [i]-th value np.arange writes, from 0 with step [dx]. *)
Lemma arange_value (dx : Qc) (i : nat) :
  (this (lit 0 + of_nat i * ((lit 0 + dx) - lit 0))
   == inject_Z (Z.of_nat i) * this dx)%Q.
Proof.
  exact_ops. to_Q. rewrite this_of_nat. ring.
Qed.

(** What the ceiling that sizes the mesh says about its last point. *)
Lemma ceiling_brackets (L dx : Q) :
  (0 < dx)%Q -> (dx <= L)%Q ->
  let c := Qceiling (L / dx) in
  (1 <= c)%Z
  /\ (inject_Z (c - 1) * dx < L)%Q
  /\ (L <= inject_Z c * dx)%Q.
Proof.
  intros Hdx HL c.
  pose proof (Qceiling_lt (L / dx)) as Hlo.
  pose proof (Qle_ceiling (L / dx)) as Hhi.
  fold c in Hlo, Hhi.
  assert (Hq : (L / dx * dx == L)%Q) by (field; lra).
  assert (H1 : (1 <= L / dx)%Q).
  { apply Qle_shift_div_l; [assumption | lra]. }
  split; [|split].
  - assert (Hc : (inject_Z 0 < inject_Z c)%Q) by (unfold inject_Z at 1; lra).
    rewrite <- Zlt_Qlt in Hc. lia.
  - apply Qmult_lt_compat_r with (z := dx) in Hlo; [|assumption].
    lra.
  - apply Qmult_le_compat_r with (z := dx) in Hhi; [|lra].
    lra.
Qed.

Lemma Qc_eq_bool_false (a b : Qc) : a <> b -> Qc_eq_bool a b = false.
Proof.
  intros Hab. unfold Qc_eq_bool. now destruct (Qc_eq_dec a b).
Qed.

Lemma Qc_eq_bool_true (a b : Qc) : a = b -> Qc_eq_bool a b = true.
Proof.
  intros Hab. unfold Qc_eq_bool. now destruct (Qc_eq_dec a b).
Qed.

(** np.arange from 0, for a positive step not larger than the stop:
    [n >= 1] points [i * dx], the last one short of the stop by at most
    one step. *)
Lemma np_arange_exact (length dx : Qc) :
  (lit 0 < dx)%Qc -> (dx <= length)%Qc ->
  exists n : nat,
    np_arange (lit 0) length dx
    = Ok (map (fun i => lit 0 + of_nat i * ((lit 0 + dx) - lit 0))
              (seq 0 (S n)))
    /\ (inject_Z (Z.of_nat n) * this dx < this length)%Q
    /\ (this length <= inject_Z (Z.of_nat (S n)) * this dx)%Q.
Proof.
  intros Hdx HL. to_Q_in Hdx. to_Q_in HL.
  unfold np_arange. cbn [py_truediv ceiling exact].
  unfold Qc_py_truediv. rewrite Qc_eq_bool_false.
  2:{ intros ->. revert Hdx. apply Qlt_irrefl. }
  cbn [bind].
  set (c := Qceiling _).
  assert (Hc : c = Qceiling (this length / this dx)).
  { unfold c. apply Qceiling_comp. exact_ops. to_Q. field. lra. }
  destruct (@ceiling_brackets (this length) (this dx) Hdx HL)
    as (Hc1 & Hlo & Hhi).
  rewrite <- Hc in Hc1, Hlo, Hhi.
  exists (Z.to_nat (c - 1)).
  replace (S (Z.to_nat (c - 1))) with (Z.to_nat c) by lia.
  split; [reflexivity|].
  rewrite !Z2Nat.id by lia. now split.
Qed.

Lemma nth_mesh_inner (g : nat -> Qc) (m : nat) (L d : Qc) (i : nat) :
  (i < m)%nat -> nth i (np_append (map g (seq 0 m)) L) d = g i.
Proof.
  intros Hi. unfold np_append.
  rewrite app_nth1 by now rewrite length_map, length_seq.
  now apply nth_map_seq.
Qed.

Lemma nth_mesh_last (g : nat -> Qc) (m : nat) (L d : Qc) :
  nth m (np_append (map g (seq 0 m)) L) d = L.
Proof.
  unfold np_append.
  rewrite app_nth2 by (rewrite length_map, length_seq; lia).
  rewrite length_map, length_seq, Nat.sub_diag. reflexivity.
Qed.

Lemma inject_Z_succ (i : nat) :
  (inject_Z (Z.of_nat (S i)) == inject_Z (Z.of_nat i) + 1)%Q.
Proof.
  rewrite Nat2Z.inj_succ. unfold Z.succ. now rewrite inject_Z_plus.
Qed.


(** *** Symmetry about mid-span *)

(** Over an integrand symmetric about index [m], a running sum that
    vanishes at [m] is antisymmetric about [m]. *)
Lemma running_antisymmetric (h : Qc) (ys : list Qc) (seed : Qc) (m : nat) :
  (forall k : nat, (k <= m)%nat ->
     nth (m + k) ys (lit 0) = nth (m - k) ys (lit 0)) ->
  running h ys seed m = lit 0 ->
  forall k : nat, (k <= m)%nat ->
    running h ys seed (m + k) + running h ys seed (m - k) = lit 0.
Proof.
  intros Hsym Hmid. induction k as [|k IH]; intros Hk.
  - rewrite Nat.add_0_r, Nat.sub_0_r, Hmid. exact_ops. ring.
  - specialize (IH ltac:(lia)).
    pose proof (Hsym k ltac:(lia)) as Hs0.
    pose proof (Hsym (S k) ltac:(lia)) as Hs1.
    replace (m + S k)%nat with (S (m + k)) in * by lia.
    replace (m - k)%nat with (S (m - S k)) in * by lia.
    cbn [running] in IH |- *. rewrite Hs1, Hs0.
    etransitivity; [|exact IH]. exact_ops. ring.
Qed.

(** Over an integrand antisymmetric about index [m], a running sum is
    symmetric about [m]. *)
Lemma running_symmetric (h : Qc) (ys : list Qc) (seed : Qc) (m : nat) :
  (forall k : nat, (k <= m)%nat ->
     nth (m + k) ys (lit 0) + nth (m - k) ys (lit 0) = lit 0) ->
  forall k : nat, (k <= m)%nat ->
    running h ys seed (m + k) = running h ys seed (m - k).
Proof.
  intros Hanti. induction k as [|k IH]; intros Hk.
  - now rewrite Nat.add_0_r, Nat.sub_0_r.
  - specialize (IH ltac:(lia)).
    pose proof (Hanti k ltac:(lia)) as Ha0.
    pose proof (Hanti (S k) ltac:(lia)) as Ha1.
    replace (m + S k)%nat with (S (m + k)) in * by lia.
    replace (m - k)%nat with (S (m - S k)) in * by lia.
    cbn [running] in IH |- *. rewrite IH.
    exact_ops.
    transitivity
      (running h ys seed (m - S k)
       + h * ((nth (S (m + k)) ys (Q2Qc 0) + nth (m - S k) ys (Q2Qc 0))
              + (nth (m + k) ys (Q2Qc 0)
                 + nth (S (m - S k)) ys (Q2Qc 0))))%Qc; [ring|].
    rewrite Ha0, Ha1. ring.
Qed.

(** The deflection at the far support: over a mesh of [2m + 1] points
    and curvatures symmetric about the middle one, the slopes corrected
    to vanish at mid-span integrate to a deflection that returns to 0 at
    the last point. *)
Lemma symmetric_run_closes (dx : Qc) (x_axis curvature_list : list Qc)
  (m : nat) (slope_list0 : list Qc) (slope_midspan : Qc)
  (slope_list deflection_list : list Qc) :
  List.length x_axis = S (2 * m) ->
  List.length curvature_list = S (2 * m) ->
  (forall k : nat, (k <= m)%nat ->
     nth (m + k) curvature_list (lit 0)
     = nth (m - k) curvature_list (lit 0)) ->
  get_slopes dx x_axis curvature_list (lit 0) = Ok slope_list0 ->
  index slope_list0 (List.length slope_list0 / 2) = Ok slope_midspan ->
  get_slopes dx x_axis curvature_list (lit 0 + (lit 0 - slope_midspan))
  = Ok slope_list ->
  get_deflections dx x_axis slope_list = Ok deflection_list ->
  nth_error slope_list (List.length slope_list / 2) = Some (lit 0)
  /\ nth_error deflection_list (List.length deflection_list - 1)
     = Some (lit 0).
Proof.
  intros Hx Hc Hsym E0 Hmid E1 Ed.
  apply get_slopes_cases in E0 as [_ ->].
  apply get_slopes_cases in E1 as [_ ->].
  apply get_deflections_cases in Ed as [_ ->].
  rewrite !length_map, !length_seq, Hx in *.
  assert (Hhalf : (S (2 * m) / 2 = m)%nat).
  { symmetry. apply Nat.div_unique with (r := 1%nat); lia. }
  rewrite Hhalf in *.
  apply index_Ok in Hmid.
  rewrite nth_error_map_seq in Hmid by lia.
  assert (Hs : running (dx / lit 2) curvature_list (lit 0) m
               = slope_midspan) by congruence.
  set (seed := lit 0 + (lit 0 - slope_midspan)) in *.
  assert (Hzero : running (dx / lit 2) curvature_list seed m = lit 0).
  { rewrite running_shift with (t := lit 0), Hs. unfold seed.
    exact_ops. ring. }
  split.
  - rewrite nth_error_map_seq by lia. now rewrite Hzero.
  - replace (S (2 * m) - 1)%nat with (m + m)%nat by lia.
    rewrite nth_error_map_seq by lia. f_equal.
    rewrite running_symmetric with (m := m) (k := m) by
      (try lia; intros k Hk; rewrite !nth_map_seq by lia;
       now apply running_antisymmetric).
    now rewrite Nat.sub_diag.
Qed.

(** *** A span of an even number of steps *)

Lemma get_curvatures_quotients (bm : list Qc) (modulus inertia : Qc) :
  modulus * inertia <> lit 0 ->
  get_curvatures bm modulus inertia
  = Ok (map (fun m => m / (modulus * inertia)) bm).
Proof.
  intros Hnz. unfold get_curvatures.
  induction bm as [|m bm IH]; [reflexivity|].
  cbn [map_result map]. rewrite IH.
  cbn [np_true_divide exact]. unfold Qc_np_true_divide.
  now rewrite Qc_eq_bool_false.
Qed.

Lemma get_curvatures_not_finite (bm : list Qc) (modulus inertia : Qc) :
  modulus * inertia = lit 0 -> bm <> [] ->
  get_curvatures bm modulus inertia = NotFinite.
Proof.
  intros Hz Hbm. unfold get_curvatures.
  destruct bm as [|m bm]; [congruence|].
  cbn [map_result np_true_divide exact]. unfold Qc_np_true_divide.
  now rewrite Qc_eq_bool_true.
Qed.

(** The moment is symmetric about mid-span. *)
Lemma moment_symmetric (w L x : Qc) : moment w L (L - x) = moment w L x.
Proof. unfold moment. exact_ops. field. discriminate. Qed.

(** np.arange over a span of exactly [n >= 1] steps has [n] points. *)
Lemma np_arange_whole_steps (dx : Qc) (n : nat) :
  (lit 0 < dx)%Qc -> (1 <= n)%nat ->
  np_arange (lit 0) (of_nat n * dx) dx
  = Ok (map (fun i => lit 0 + of_nat i * ((lit 0 + dx) - lit 0))
            (seq 0 n)).
Proof.
  intros Hdx Hn.
  assert (HL : (dx <= (of_nat n * dx)%num)%Qc).
  { to_Q_in Hdx. exact_ops. to_Q. rewrite this_of_nat.
    assert (H1 : (1 <= inject_Z (Z.of_nat n))%Q).
    { change 1%Q with (inject_Z 1). rewrite <- Zle_Qle. lia. }
    assert (H2 : (0 <= (inject_Z (Z.of_nat n) - 1) * this dx)%Q)
      by (apply Qmult_le_0_compat; lra).
    lra. }
  destruct (np_arange_exact Hdx HL) as (k & Harange & Hlo & Hhi).
  rewrite Harange. do 3 f_equal.
  to_Q_in Hdx. exact_ops.
  rewrite this_mult, this_of_nat in Hlo, Hhi.
  apply Qmult_lt_r in Hlo; [|assumption].
  apply Qmult_le_r in Hhi; [|assumption].
  rewrite <- Zlt_Qlt in Hlo. rewrite <- Zle_Qle in Hhi. lia.
Qed.

Lemma nth_map_in {A : Type} (f : A -> Qc) (l : list A) (i : nat)
  (d : Qc) (d' : A) :
  (i < List.length l)%nat -> nth i (map f l) d = f (nth i l d').
Proof.
  intros Hi. rewrite nth_indep with (d' := f d') by now rewrite length_map.
  apply map_nth.
Qed.

Lemma of_nat_complement (a b : nat) (dx : Qc) :
  (b <= a)%nat ->
  of_nat (a - b) * dx = of_nat a * dx - of_nat b * dx.
Proof.
  intros Hab. apply Qc_eq_Q. exact_ops.
  rewrite this_minus, !this_mult, !this_of_nat.
  rewrite Nat2Z.inj_sub by assumption.
  unfold Z.sub. rewrite inject_Z_plus, inject_Z_opp. ring.
Qed.

(** The computation of main.py, lines 66-87, over a span of [2m] steps:
    every stage returns, the corrected slope vanishes at mid-span and
    the deflection is 0 at both supports. *)
Lemma even_span_run_closes (load dx inertia modulus : Qc) (m : nat) :
  (lit 0 < dx)%Qc -> (1 <= m)%nat -> modulus * inertia <> lit 0 ->
  let length := of_nat (2 * m) * dx in
  exists (x0 bm c sl0 : list Qc) (s : Qc) (sl dl : list Qc),
    np_arange (lit 0) length dx = Ok x0
    /\ List.length (np_append x0 length) = S (2 * m)
    /\ get_bending_moments (np_append x0 length) load length = Ok bm
    /\ get_curvatures bm modulus inertia = Ok c
    /\ get_slopes dx (np_append x0 length) c (lit 0) = Ok sl0
    /\ index sl0 (List.length sl0 / 2) = Ok s
    /\ get_slopes dx (np_append x0 length) c (lit 0 + (lit 0 - s)) = Ok sl
    /\ get_deflections dx (np_append x0 length) sl = Ok dl
    /\ nth_error sl (List.length sl / 2) = Some (lit 0)
    /\ nth_error dl 0 = Some (lit 0)
    /\ nth_error dl (List.length dl - 1) = Some (lit 0).
Proof.
  intros Hdx Hm Hnz length.
  set (g := fun i : nat => lit 0 + of_nat i * ((lit 0 + dx) - lit 0)).
  set (x := np_append (map g (seq 0 (2 * m))) length).
  set (bm := map (moment load length) x).
  set (c := map (fun v => v / (modulus * inertia)) bm).
  assert (Hx : List.length x = S (2 * m)).
  { unfold x, np_append. rewrite length_app, length_map, length_seq.
    cbn [List.length]. lia. }
  assert (Hc : List.length c = S (2 * m))
    by (unfold c, bm; now rewrite !length_map).
  assert (Hpt : forall i : nat, (i <= 2 * m)%nat ->
                  nth i x (lit 0) = of_nat i * dx).
  { intros i Hi. destruct (Nat.eq_dec i (2 * m)) as [->|Hne].
    - unfold x. now rewrite nth_mesh_last.
    - unfold x. rewrite nth_mesh_inner by lia.
      unfold g. exact_ops. ring. }
  assert (Hsym : forall k : nat, (k <= m)%nat ->
                   nth (m + k) c (lit 0) = nth (m - k) c (lit 0)).
  { intros k Hk. unfold c, bm.
    rewrite !nth_map_in with (d' := lit 0) by (rewrite ?length_map; lia).
    rewrite !Hpt by lia.
    replace (m + k)%nat with (2 * m - (m - k))%nat at 1 by lia.
    rewrite of_nat_complement by lia.
    now rewrite (moment_symmetric load length (of_nat (m - k) * dx)). }
  pose proof (@get_slopes_running Qc exact dx x c (lit 0)
                ltac:(left; lia)) as E0.
  assert (Hhalf : (S (2 * m) / 2 = m)%nat).
  { symmetry. apply Nat.div_unique with (r := 1%nat); lia. }
  set (sl0 := map (running (dx / lit 2) c (lit 0)) (seq 0 (List.length x)))
    in E0.
  set (s := running (dx / lit 2) c (lit 0) m).
  assert (Hmid : index sl0 (List.length sl0 / 2) = Ok s).
  { unfold sl0. rewrite length_map, length_seq, Hx, Hhalf.
    apply index_Ok. now rewrite nth_error_map_seq by lia. }
  pose proof (@get_slopes_running Qc exact dx x c (lit 0 + (lit 0 - s))
                ltac:(left; lia)) as E1.
  set (sl := map _ _) in E1.
  assert (Hsl : List.length sl = List.length x)
    by (unfold sl; now rewrite length_map, length_seq).
  pose proof (@get_deflections_running Qc exact dx x sl
                ltac:(left; lia)) as Ed.
  set (dl := map _ _) in Ed.
  destruct (@symmetric_run_closes dx x c m sl0 s sl dl Hx Hc Hsym
              E0 Hmid E1 Ed) as [Hslope Hlast].
  exists (map g (seq 0 (2 * m))), bm, c, sl0, s, sl, dl.
  fold x. repeat apply conj; try assumption.
  - apply np_arange_whole_steps; [assumption | lia].
  - apply get_bending_moments_map.
  - now apply get_curvatures_quotients.
  - unfold dl. rewrite Hx. reflexivity.
Qed.

End Exact.

(** ** The claims *)

Section Claims.
Local Open Scope num_scope.

(** C10. [get_slopes] is affine in its seed: over the same step, mesh and
    curvatures, the slopes from seed [s] are the slopes from seed [t],
    each shifted by [s - t]. *)
Theorem get_slopes_affine_in_seed
  (dx : Qc) (x_axis curvature_list : list Qc) (s t : Qc) (slopes_t : list Qc) :
  get_slopes dx x_axis curvature_list t = Ok slopes_t ->
  get_slopes dx x_axis curvature_list s
  = Ok (map (fun v => (s - t) + v) slopes_t).
Proof.
  intros E. apply get_slopes_cases in E as [Hlen ->].
  rewrite get_slopes_running by assumption.
  f_equal. rewrite map_map. apply map_ext. intros i.
  apply running_shift.
Qed.

Lemma get_slopes_affine_in_seed_witness :
  get_slopes (lit 0.1) [lit 0; lit 0.1; lit 0.2] [lit 1; lit 2; lit 3] (lit 5)
  = Ok (map (fun v => (lit 5 - lit 0) + v) [lit 0; lit 0.15; lit 0.4]).
Proof.
  apply get_slopes_affine_in_seed. qc_eval.
Defined.

(** C1. The two-pass shooting step zeroes the mid-span slope: when the
    first pass, seeded with 0, yields [s] at index [len/2], the second
    pass, seeded with [0 + (0 - s)] (which is [0 - s]), returns a sequence
    whose element at index [len/2] is exactly 0. *)
Theorem two_pass_zeroes_midspan_slope
  (dx : Qc) (x_axis curvature_list slope_list : list Qc) (slope_midspan : Qc) :
  get_slopes dx x_axis curvature_list (lit 0) = Ok slope_list ->
  index slope_list (List.length slope_list / 2) = Ok slope_midspan ->
  lit 0 + (lit 0 - slope_midspan) = lit 0 - slope_midspan
  /\ exists slope_list' : list Qc,
       get_slopes dx x_axis curvature_list (lit 0 + (lit 0 - slope_midspan))
       = Ok slope_list'
       /\ index slope_list' (List.length slope_list' / 2) = Ok (lit 0).
Proof.
  intros E Hmid.
  split; [exact_ops; ring|].
  apply get_slopes_cases in E as [Hlen ->].
  eexists. split; [now apply get_slopes_running|].
  rewrite length_map, length_seq in *.
  apply index_Ok in Hmid. apply index_Ok.
  assert (Hi : (List.length x_axis / 2 < List.length x_axis)%nat).
  { destruct (List.length x_axis) as [|n]; [discriminate|].
    apply Nat.div_lt; lia. }
  set (mid := (List.length x_axis / 2)%nat) in *.
  rewrite nth_error_map_seq in Hmid |- * by assumption.
  assert (Hs : running (dx / lit 2) curvature_list (lit 0) mid
               = slope_midspan) by congruence.
  f_equal. rewrite running_shift with (t := lit 0), Hs.
  exact_ops. ring.
Qed.

Lemma two_pass_zeroes_midspan_slope_witness :
  lit 0 + (lit 0 - lit 0.15) = lit 0 - lit 0.15
  /\ exists slope_list' : list Qc,
       get_slopes (lit 0.1) [lit 0; lit 0.1; lit 0.2] [lit 1; lit 2; lit 3]
         (lit 0 + (lit 0 - lit 0.15))
       = Ok slope_list'
       /\ index slope_list' (List.length slope_list' / 2) = Ok (lit 0).
Proof.
  apply (@two_pass_zeroes_midspan_slope (lit 0.1)
           [lit 0; lit 0.1; lit 0.2] [lit 1; lit 2; lit 3]
           [lit 0; lit 0.15; lit 0.4] (lit 0.15)); qc_eval.
Defined.

(** C3, as the code has it.  The slope integrator follows the trapezoidal
    recurrence with the nominal step [dx] it is passed, not with the
    local mesh step: [theta_0 = seed] and, for [i >= 1],
    [theta_i = theta_(i-1) + dx/2 * (kappa_i + kappa_(i-1))].  The mesh
    fixes only the number of steps.  Wherever the mesh interval
    [x_i - x_(i-1)] equals [dx], that is the local-step recurrence. *)
Theorem get_slopes_nominal_step_recurrence
  (dx : Qc) (x kappa : list Qc) (seed : Qc) (theta : list Qc) :
  get_slopes dx x kappa seed = Ok theta ->
  List.length theta = List.length x
  /\ (x <> [] -> nth_error theta 0 = Some seed)
  /\ (forall i : nat, (1 <= i < List.length x)%nat ->
        nth i theta (lit 0)
        = nth (i - 1) theta (lit 0)
          + dx / lit 2 * (nth i kappa (lit 0) + nth (i - 1) kappa (lit 0)))
  /\ (forall i : nat, (1 <= i < List.length x)%nat ->
        nth i x (lit 0) - nth (i - 1) x (lit 0) = dx ->
        nth i theta (lit 0)
        = nth (i - 1) theta (lit 0)
          + (nth i x (lit 0) - nth (i - 1) x (lit 0)) / lit 2
            * (nth i kappa (lit 0) + nth (i - 1) kappa (lit 0))).
Proof.
  intros E. apply get_slopes_cases in E as [Hlen ->].
  assert (Hrec : forall i : nat, (1 <= i < List.length x)%nat ->
    nth i (map (running (dx / lit 2) kappa seed) (seq 0 (List.length x)))
        (lit 0)
    = nth (i - 1)
        (map (running (dx / lit 2) kappa seed) (seq 0 (List.length x)))
        (lit 0)
      + dx / lit 2 * (nth i kappa (lit 0) + nth (i - 1) kappa (lit 0))).
  { intros i Hi. rewrite !nth_map_seq by lia.
    destruct i as [|i]; [lia|].
    now replace (S i - 1)%nat with i by lia. }
  split; [now rewrite length_map, length_seq|].
  split; [|split].
  - intros Hx. destruct x as [|x0 x]; [congruence|]. reflexivity.
  - exact Hrec.
  - intros i Hi Hstep. rewrite Hstep. now apply Hrec.
Qed.

Lemma get_slopes_nominal_step_recurrence_witness :
  let theta := [lit 0; lit 0.3; lit 0.6] in
  List.length theta = 3%nat
  /\ nth_error theta 0 = Some (lit 0)
  /\ nth 2 theta (lit 0)
     = nth 1 theta (lit 0) + lit 0.3 / lit 2 * (lit 1 + lit 1)
  /\ nth 1 theta (lit 0)
     = nth 0 theta (lit 0) + (lit 0.3 - lit 0) / lit 2 * (lit 1 + lit 1).
Proof.
  destruct (@get_slopes_nominal_step_recurrence (lit 0.3)
              [lit 0; lit 0.3; lit 0.5] [lit 1; lit 1; lit 1] (lit 0)
              [lit 0; lit 0.3; lit 0.6])
    as (Hlen & H0 & Hrec & Hloc); [qc_eval|].
  cbv zeta. split; [exact Hlen|]. split; [apply H0; discriminate|].
  split.
  - apply (Hrec 2%nat). cbn. lia.
  - apply (Hloc 1%nat); [cbn; lia | qc_eval].
Defined.

(** C3, as the specification words it, fails on a mesh whose final
    interval is shorter than the step: for [length = 0.5] and [dx = 0.3]
    the mesh is [0, 0.3, 0.5]; over unit curvatures the integrator
    returns [0, 0.3, 0.6], while the local step [0.5 - 0.3] asks for
    [0.3 + 0.1 * 2 = 0.5] at the last point. *)
Lemma local_step_recurrence_counterexample :
  np_arange (lit 0) (lit 0.5) (lit 0.3) = Ok [lit 0; lit 0.3]
  /\ get_slopes (lit 0.3) (np_append [lit 0; lit 0.3] (lit 0.5))
       [lit 1; lit 1; lit 1] (lit 0)
     = Ok [lit 0; lit 0.3; lit 0.6]
  /\ ~ local_step_recurrence (np_append [lit 0; lit 0.3] (lit 0.5))
         [lit 1; lit 1; lit 1] (lit 0) [lit 0; lit 0.3; lit 0.6].
Proof.
  split; [qc_eval|]. split; [qc_eval|].
  intros [_ Hrec]. specialize (Hrec 2%nat).
  assert (Hi : (1 <= 2 < List.length (np_append [lit 0; lit 0.3] (lit 0.5)))%nat)
    by (cbn; lia).
  specialize (Hrec Hi). apply (f_equal this) in Hrec.
  vm_compute in Hrec. discriminate.
Qed.




(** C5. In exact arithmetic, for a positive load [w] and a positive
    length [L], the bending moment at every position [x] of [[0, L]] is at
    most [w*L^2/8], with equality exactly at [x = L/2]; hence every
    element of the moment sequence over a mesh inside [[0, L]] is at most
    [w*L^2/8].  In binary64 the program's run keeps the bound: none of its
    moments exceeds [w*L^2/8 = 31250], which is the moment at mid-span,
    index 25. *)
Theorem moment_max_at_midspan :
  (forall w L : Qc,
     (lit 0 < w)%Qc -> (lit 0 < L)%Qc ->
     (forall x : Qc, (lit 0 <= x <= L)%Qc ->
        (moment w L x <= w * pow L 2 / lit 8)%Qc
        /\ (moment w L x = w * pow L 2 / lit 8 <-> x = L / lit 2))
     /\ (forall x_axis : list Qc,
           Forall (fun x : Qc => (lit 0 <= x <= L)%Qc) x_axis ->
           exists bending_moment : list Qc,
             get_bending_moments x_axis w L = Ok bending_moment
             /\ Forall (fun m : Qc => (m <= w * pow L 2 / lit 8)%Qc)
                  bending_moment))
  /\ (exists r : report float,
        main = Ok r
        /\ forallb
             (fun m => negb (less (lit 10000 * pow (lit 5) 2 / lit 8) m))
             (moments r) = true
        /\ nth_error (mesh r) 25 = Some (lit 5 / lit 2)
        /\ nth_error (moments r) 25
           = Some (lit 10000 * pow (lit 5) 2 / lit 8)).
Proof.
  split.
  - intros w L Hw HL. split.
    + intros x _.
      split; [now apply moment_le_max | now apply moment_eq_max_iff].
    + intros x_axis _. exists (map (moment w L) x_axis).
      split; [apply get_bending_moments_map|].
      apply Forall_map, Forall_forall. intros x _. now apply moment_le_max.
  - eexists. split; [vm_compute; reflexivity|].
    repeat apply conj; vm_compute; reflexivity.
Qed.

Lemma moment_max_at_midspan_witness :
  ((moment (lit 10) (lit 4) (lit 1) <= lit 10 * pow (lit 4) 2 / lit 8)%Qc
   /\ (moment (lit 10) (lit 4) (lit 2) = lit 10 * pow (lit 4) 2 / lit 8
       <-> lit 2 = lit 4 / lit 2))
  /\ exists bending_moment : list Qc,
       get_bending_moments [lit 0; lit 1; lit 2; lit 3; lit 4]
         (lit 10) (lit 4)
       = Ok bending_moment
       /\ Forall (fun m : Qc => (m <= lit 10 * pow (lit 4) 2 / lit 8)%Qc)
            bending_moment.
Proof.
  assert (Hw : (lit 0 < lit 10)%Qc) by reflexivity.
  assert (HL : (lit 0 < lit 4)%Qc) by reflexivity.
  destruct (proj1 moment_max_at_midspan (lit 10) (lit 4) Hw HL)
    as [Hpt Hseq].
  split; [split|].
  - apply (Hpt (lit 1)). split; discriminate.
  - apply (Hpt (lit 2)). split; discriminate.
  - apply Hseq. repeat constructor; discriminate.
Defined.

(** C5, for every positive load and length, fails in the doubles the
    program computes with: for [w = 0.1], [L = 3] and [x = 1.5 = L/2] the
    hypotheses hold, and line 27 yields [0.11250000000000002], above
    [w*L^2/8 = 0.1125]; one-point mesh [1.5] included. *)
Lemma moment_max_at_midspan_counterexample :
  let w : float := lit 0.1 in
  let L : float := lit 3 in
  let x : float := lit 1.5 in
  less (lit 0) w = true /\ less (lit 0) L = true
  /\ less x (lit 0) = false /\ less L x = false
  /\ x = L / lit 2
  /\ less (w * (L * L) / lit 8) (moment w L x) = true
  /\ less (w * pow L 2 / lit 8) (moment w L x) = true
  /\ moment w L x <> w * pow L 2 / lit 8
  /\ get_bending_moments [x] w L = Ok [moment w L x].
Proof.
  cbv zeta.
  repeat apply conj; vm_compute; try reflexivity; discriminate.
Qed.

(** C8. Index alignment: over every mesh, each stage that returns
    returns a sequence as long as the mesh, and returns whenever its
    input sequence is itself aligned with the mesh; so the moments,
    curvatures, slopes and deflections of a run all have the length of
    its mesh.  This holds in every arithmetic, exact or binary64. *)
Theorem stages_aligned_with_mesh (num : Type) (A : Arith num)
  (x_axis : list num) :
  (forall load length : num,
     exists bm : list num,
       get_bending_moments x_axis load length = Ok bm
       /\ List.length bm = List.length x_axis)
  /\ (forall (bm : list num) (modulus inertia : num) (c : list num),
        List.length bm = List.length x_axis ->
        get_curvatures bm modulus inertia = Ok c ->
        List.length c = List.length x_axis)
  /\ (forall (dx : num) (c : list num) (seed : num),
        List.length c = List.length x_axis ->
        exists sl : list num,
          get_slopes dx x_axis c seed = Ok sl
          /\ List.length sl = List.length x_axis)
  /\ (forall (dx : num) (c : list num) (seed : num) (sl : list num),
        get_slopes dx x_axis c seed = Ok sl ->
        List.length sl = List.length x_axis)
  /\ (forall (dx : num) (sl : list num),
        List.length sl = List.length x_axis ->
        exists dl : list num,
          get_deflections dx x_axis sl = Ok dl
          /\ List.length dl = List.length x_axis)
  /\ (forall (dx : num) (sl dl : list num),
        get_deflections dx x_axis sl = Ok dl ->
        List.length dl = List.length x_axis)
  /\ (forall (load length dx inertia modulus : num) (r : report num),
        pipeline load length dx inertia modulus = Ok r ->
        List.length (moments r) = List.length (mesh r)
        /\ List.length (curvatures r) = List.length (mesh r)
        /\ List.length (slopes r) = List.length (mesh r)
        /\ List.length (deflections r) = List.length (mesh r)).
Proof.
  repeat apply conj.
  - intros load length. exists (map (moment load length) x_axis).
    split; [apply get_bending_moments_map | apply length_map].
  - intros bm modulus inertia c Hbm E.
    apply map_result_length in E. congruence.
  - intros dx c seed Hc. eexists. split.
    + apply get_slopes_running. left. lia.
    + now rewrite length_map, length_seq.
  - intros dx c seed sl E. apply get_slopes_cases in E as [_ ->].
    now rewrite length_map, length_seq.
  - intros dx sl Hsl. eexists. split.
    + apply get_deflections_running. left. lia.
    + now rewrite length_map, length_seq.
  - intros dx sl dl E. apply get_deflections_cases in E as [_ ->].
    now rewrite length_map, length_seq.
  - intros load length dx inertia modulus r E.
    apply pipeline_stages in E
      as (x0 & sl0 & sm & _ & _ & Hbm & Hc & _ & _ & Hsl & Hdl & _).
    rewrite get_bending_moments_map in Hbm. injection Hbm as Hbm.
    apply map_result_length in Hc.
    apply get_slopes_cases in Hsl as [_ Hsl].
    apply get_deflections_cases in Hdl as [_ Hdl].
    rewrite Hc, Hsl, Hdl, <- Hbm.
    now rewrite !length_map, !length_seq.
Qed.

Lemma stages_aligned_with_mesh_witness :
  List.length [lit 0; lit (49 # 1000); lit (1 # 10)] = 3%nat
  /\ (exists sl : list Qc,
        get_slopes (lit 0.1) [lit 0; lit 0.1; lit 0.2]
          [lit 1; lit 2; lit 3] (lit 0) = Ok sl
        /\ List.length sl = 3%nat)
  /\ List.length [lit 0; lit 0.15; lit 0.4] = 3%nat
  /\ (exists dl : list Qc,
        get_deflections (lit 0.1) [lit 0; lit 0.1; lit 0.2]
          [lit 0; lit 0.15; lit 0.4] = Ok dl
        /\ List.length dl = 3%nat)
  /\ List.length [lit 0; lit 0.0075; lit 0.035] = 3%nat
  /\ (exists r : report Qc,
        main = Ok r
        /\ List.length (moments r) = List.length (mesh r)
        /\ List.length (curvatures r) = List.length (mesh r)
        /\ List.length (slopes r) = List.length (mesh r)
        /\ List.length (deflections r) = List.length (mesh r)).
Proof.
  destruct (@stages_aligned_with_mesh Qc exact [lit 0; lit 0.1; lit 0.2])
    as (_ & Hc & Hs & Hs' & Hd & Hd' & Hrun).
  split.
  { apply (Hc [lit 0; lit 49; lit 100] (lit 10) (lit 100)
              [lit 0; lit (49 # 1000); lit (1 # 10)]);
      [reflexivity | qc_eval]. }
  split; [apply Hs; reflexivity|].
  split.
  { apply (Hs' (lit 0.1) [lit 1; lit 2; lit 3] (lit 0)
               [lit 0; lit 0.15; lit 0.4]). qc_eval. }
  split; [apply Hd; reflexivity|].
  split.
  { apply (Hd' (lit 0.1) [lit 0; lit 0.15; lit 0.4]
               [lit 0; lit 0.0075; lit 0.035]). qc_eval. }
  eexists. split; [vm_compute; reflexivity|].
  apply (Hrun (lit 10 * pow (lit 10) 3) (lit 5) (lit 0.1)
              (lit 1 / lit 12 * lit 0.3 * pow (lit 0.5) 3)
              (lit 30 * pow (lit 10) 9)).
  vm_compute. reflexivity.
Defined.




(** C9. The division of [get_curvatures] is unguarded.  In exact
    arithmetic, a nonzero [modulus * inertia] makes every element the
    quotient, and a zero one (a zero modulus or a zero inertia) leaves a
    nonempty sequence without a value.  In binary64 the function returns
    a sequence for every input and raises nothing: over a zero divisor
    its elements are [inf], [nan] and [-inf]. *)
Theorem get_curvatures_unguarded :
  (forall (bm : list Qc) (modulus inertia : Qc),
     modulus * inertia <> lit 0 ->
     get_curvatures bm modulus inertia
     = Ok (map (fun m => m / (modulus * inertia)) bm))
  /\ (forall (bm : list Qc) (modulus inertia : Qc),
        modulus = lit 0 \/ inertia = lit 0 -> bm <> [] ->
        get_curvatures bm modulus inertia = NotFinite)
  /\ (forall (bm : list float) (modulus inertia : float),
        get_curvatures bm modulus inertia
        = Ok (map (fun m => m / (modulus * inertia)) bm))
  /\ get_curvatures (num := float) [lit 31250; lit 0; lit (-31250)]
       (lit 0) (lit 0.003125)
     = Ok [PrimFloat.infinity; PrimFloat.nan; PrimFloat.neg_infinity].
Proof.
  repeat apply conj.
  - apply get_curvatures_quotients.
  - intros bm modulus inertia Hz Hbm.
    apply get_curvatures_not_finite; [|assumption].
    exact_ops. destruct Hz as [-> | ->]; ring.
  - intros bm modulus inertia. unfold get_curvatures.
    induction bm as [|m bm IH]; [reflexivity|].
    cbn [map_result map]. now rewrite IH.
  - vm_compute. reflexivity.
Qed.

Lemma get_curvatures_unguarded_witness :
  get_curvatures [lit 0; lit 2450; lit 4800] (lit 10) (lit 100)
  = Ok (map (fun m => m / (lit 10 * lit 100))
            [lit 0; lit 2450; lit 4800])
  /\ get_curvatures [lit 0; lit 2450; lit 4800] (lit 0) (lit 0.003125)
     = NotFinite.
Proof.
  destruct get_curvatures_unguarded as (Hnz & Hz & _).
  split.
  - apply Hnz. discriminate.
  - apply Hz; [now left | discriminate].
Defined.

(** With a zero modulus the run does not end quietly: the curvatures are
    computed (as [inf] and [nan]), but the closed form of line 99 divides
    two Python floats and raises. *)
Remark zero_modulus_run_raises :
  pipeline (num := float) (lit 10000) (lit 5) (lit 0.1) (lit 0.003125) (lit 0)
  = Raise ZeroDivisionError.
Proof. vm_compute. reflexivity. Qed.

(** C2. For the constants of the program, the mid-span deflection (the
    element at index [len/2] of the deflection sequence) is within 1% of
    the closed form [-(5/384) * (load * length^4) / (modulus * inertia)]:
    [|computed - theoretical| / |theoretical| < 0.01], in exact
    arithmetic (where the two values are [-347/400000] and [-1/1152])
    and in binary64. *)
Theorem main_mid_deflection_within_1_percent :
  (exists r : report Qc,
     main = Ok r
     /\ index (deflections r) (List.length (deflections r) / 2)
        = Ok (mid_deflection r)
     /\ mid_deflection_theor r
        = - (lit 5 / lit 384) * (lit 10 * pow (lit 10) 3 * pow (lit 5) 4)
          / (lit 30 * pow (lit 10) 9
             * (lit 1 / lit 12 * lit 0.3 * pow (lit 0.5) 3))
     /\ mid_deflection r = lit (-347 # 400000)
     /\ mid_deflection_theor r = lit (-1 # 1152)
     /\ (absolute (mid_deflection r - mid_deflection_theor r)
         / absolute (mid_deflection_theor r) < lit 0.01)%Qc)
  /\ (exists r : report float,
        main = Ok r
        /\ index (deflections r) (List.length (deflections r) / 2)
           = Ok (mid_deflection r)
        /\ mid_deflection_theor r
           = - (lit 5 / lit 384) * (lit 10 * pow (lit 10) 3 * pow (lit 5) 4)
             / (lit 30 * pow (lit 10) 9
                * (lit 1 / lit 12 * lit 0.3 * pow (lit 0.5) 3))
        /\ less (absolute (mid_deflection r - mid_deflection_theor r)
                 / absolute (mid_deflection_theor r)) (lit 0.01)
           = true).
Proof.
  split.
  - eexists. split; [vm_compute; reflexivity|].
    repeat apply conj; try qc_eval.
    vm_compute. reflexivity.
  - eexists. split; [vm_compute; reflexivity|].
    repeat apply conj; vm_compute; reflexivity.
Qed.

(** What the run prints as its error is the signed quotient of line 102,
    [abs(theoretical - computed) / theoretical]: with a negative closed
    form it is negative, [-2/3125 = -0.00064] in exact arithmetic. *)
Remark main_printed_error :
  exists r : report Qc, main = Ok r /\ rel_error r = lit (-2 # 3125).
Proof.
  eexists. split; [vm_compute; reflexivity | qc_eval].
Qed.

(** In binary64 the same run is exact only to rounding: the corrected
    slope at mid-span and the deflection at the far support are not 0,
    but positive and smaller than [1e-18]. *)
Remark main_binary64_residuals :
  exists r : report float,
    main = Ok r
    /\ less (lit 0) (nth 25 (slopes r) (lit 0)) = true
    /\ less (nth 25 (slopes r) (lit 0)) (lit (1 # 10 ^ 18)) = true
    /\ less (lit 0) (nth 50 (deflections r) (lit 0)) = true
    /\ less (nth 50 (deflections r) (lit 0)) (lit (1 # 10 ^ 18)) = true.
Proof.
  eexists. split; [vm_compute; reflexivity|].
  repeat apply conj; vm_compute; reflexivity.
Qed.

(** C6. Deflection is zero at both supports.  The first element of
    whatever [get_deflections] returns over a nonempty mesh is exactly 0.
    Over a span of an even number of steps, for every load and every
    nonzero [modulus * inertia], lines 66-87 return, the corrected slope
    vanishes at mid-span and the last deflection, at [x = length], is
    exactly 0.  The program's run, with [length = 5 = 50 * 0.1], is such
    a run: in exact arithmetic its deflection sequence starts and ends
    with 0. *)
Theorem deflection_zero_at_supports :
  (forall (dx : Qc) (x_axis slope_list deflection_list : list Qc),
     get_deflections dx x_axis slope_list = Ok deflection_list ->
     x_axis <> [] ->
     nth_error deflection_list 0 = Some (lit 0))
  /\ (forall (load dx inertia modulus : Qc) (m : nat),
        (lit 0 < dx)%Qc -> (1 <= m)%nat -> modulus * inertia <> lit 0 ->
        let length := of_nat (2 * m) * dx in
        exists (x0 bm c sl0 : list Qc) (s : Qc) (sl dl : list Qc),
          np_arange (lit 0) length dx = Ok x0
          /\ List.length (np_append x0 length) = S (2 * m)
          /\ get_bending_moments (np_append x0 length) load length = Ok bm
          /\ get_curvatures bm modulus inertia = Ok c
          /\ get_slopes dx (np_append x0 length) c (lit 0) = Ok sl0
          /\ index sl0 (List.length sl0 / 2) = Ok s
          /\ get_slopes dx (np_append x0 length) c (lit 0 + (lit 0 - s))
             = Ok sl
          /\ get_deflections dx (np_append x0 length) sl = Ok dl
          /\ nth_error sl (List.length sl / 2) = Some (lit 0)
          /\ nth_error dl 0 = Some (lit 0)
          /\ nth_error dl (List.length dl - 1) = Some (lit 0))
  /\ (exists r : report Qc,
        main = Ok r
        /\ nth_error (mesh r) 0 = Some (lit 0)
        /\ nth_error (deflections r) 0 = Some (lit 0)
        /\ nth_error (mesh r) (List.length (mesh r) - 1) = Some (lit 5)
        /\ nth_error (deflections r) (List.length (deflections r) - 1)
           = Some (lit 0)
        /\ List.length (deflections r) = List.length (mesh r)).
Proof.
  split; [|split].
  - intros dx x_axis slope_list deflection_list E Hx.
    apply get_deflections_cases in E as [_ ->].
    destruct x_axis as [|x0 x_axis]; [congruence|]. reflexivity.
  - intros load dx inertia modulus m Hdx Hm Hnz.
    now apply even_span_run_closes.
  - eexists. split; [vm_compute; reflexivity|].
    repeat apply conj; try qc_eval. reflexivity.
Qed.

Lemma deflection_zero_at_supports_witness :
  nth_error [lit 0; lit 0.0075; lit 0.035] 0 = Some (lit 0)
  /\ exists (x0 bm c sl0 : list Qc) (s : Qc) (sl dl : list Qc),
       np_arange (lit 0) (of_nat (2 * 1) * lit 0.5) (lit 0.5) = Ok x0
       /\ List.length (np_append x0 (of_nat (2 * 1) * lit 0.5)) = 3%nat
       /\ get_bending_moments (np_append x0 (of_nat (2 * 1) * lit 0.5))
            (lit 8) (of_nat (2 * 1) * lit 0.5) = Ok bm
       /\ get_curvatures bm (lit 2) (lit 3) = Ok c
       /\ get_slopes (lit 0.5) (np_append x0 (of_nat (2 * 1) * lit 0.5))
            c (lit 0) = Ok sl0
       /\ index sl0 (List.length sl0 / 2) = Ok s
       /\ get_slopes (lit 0.5) (np_append x0 (of_nat (2 * 1) * lit 0.5))
            c (lit 0 + (lit 0 - s)) = Ok sl
       /\ get_deflections (lit 0.5)
            (np_append x0 (of_nat (2 * 1) * lit 0.5)) sl = Ok dl
       /\ nth_error sl (List.length sl / 2) = Some (lit 0)
       /\ nth_error dl 0 = Some (lit 0)
       /\ nth_error dl (List.length dl - 1) = Some (lit 0).
Proof.
  destruct deflection_zero_at_supports as (Hfirst & Heven & _).
  split.
  - apply (Hfirst (lit 0.1) [lit 0; lit 0.1; lit 0.2]
             [lit 0; lit 0.15; lit 0.4] [lit 0; lit 0.0075; lit 0.035]);
      [qc_eval | discriminate].
  - apply (Heven (lit 8) (lit 0.5) (lit 3) (lit 2) 1%nat);
      [reflexivity | apply le_n | discriminate].
Defined.

End Claims.


(** * Further properties of the code *)

(** ** The integrators, in every arithmetic *)

Section Integrators.
Context {num : Type} `{Arith num}.
Local Open Scope num_scope.

(** The integrators use the mesh for its length only: two meshes of the
    same length, whatever their points, give the same slopes and the same
    deflections (or the same exception). *)
Theorem integrators_read_only_mesh_length
  (dx : num) (x_axis x_axis' ys : list num) (seed : num) :
  List.length x_axis = List.length x_axis' ->
  get_slopes dx x_axis ys seed = get_slopes dx x_axis' ys seed
  /\ get_deflections dx x_axis ys = get_deflections dx x_axis' ys.
Proof.
  intros Hlen. unfold get_slopes, get_deflections. now rewrite Hlen.
Qed.

(** When the integrators return and when they raise.  Over an integrand
    at least as long as the mesh, or over a mesh of at most one point
    (where the integrand is never read), [get_slopes] returns one value
    per mesh point, the first being the seed, and [get_deflections]
    likewise from 0; an empty mesh gives an empty sequence.  Over a mesh
    of two or more points and a shorter integrand both raise
    [IndexError]. *)
Theorem integrators_return_or_raise
  (dx : num) (x_axis ys : list num) (seed : num) :
  ((List.length x_axis <= List.length ys \/ List.length x_axis <= 1)%nat ->
   exists sl dl : list num,
     get_slopes dx x_axis ys seed = Ok sl
     /\ get_deflections dx x_axis ys = Ok dl
     /\ List.length sl = List.length x_axis
     /\ List.length dl = List.length x_axis
     /\ (x_axis = [] -> sl = [] /\ dl = [])
     /\ (x_axis <> [] ->
         nth_error sl 0 = Some seed /\ nth_error dl 0 = Some (lit 0)))
  /\ ((List.length ys < List.length x_axis)%nat ->
      (2 <= List.length x_axis)%nat ->
      get_slopes dx x_axis ys seed = Raise IndexError
      /\ get_deflections dx x_axis ys = Raise IndexError).
Proof.
  split.
  - intros Hlen.
    rewrite get_slopes_running, get_deflections_running by assumption.
    do 2 eexists.
    split; [reflexivity|]. split; [reflexivity|].
    rewrite !length_map, !length_seq.
    split; [reflexivity|]. split; [reflexivity|]. split.
    + intros ->. now split.
    + intros Hx. destruct x_axis as [|x0 x_axis]; [congruence|]. now split.
  - intros Hshort Htwo.
    now rewrite get_slopes_raise, get_deflections_raise by assumption.
Qed.

(** The moment loop never fails and works point by point: the moment
    sequence is the moment formula mapped over the mesh, so the moments
    over two meshes laid end to end are the two moment sequences laid end
    to end. *)
Theorem get_bending_moments_pointwise
  (x_axis x_axis' : list num) (load length : num) :
  get_bending_moments x_axis load length
  = Ok (map (moment load length) x_axis)
  /\ get_bending_moments (x_axis ++ x_axis') load length
     = (bm <- get_bending_moments x_axis load length ;;
        bm' <- get_bending_moments x_axis' load length ;;
        Ok (bm ++ bm')).
Proof.
  rewrite !get_bending_moments_map. cbn [bind].
  split; [reflexivity|]. now rewrite map_app.
Qed.

End Integrators.

Lemma integrators_read_only_mesh_length_witness :
  get_slopes (lit 0.1) [lit 0; lit 0.1; lit 0.2] [lit 1; lit 2; lit 3] (lit 0)
  = get_slopes (lit 0.1) [lit 7; lit 7; lit 7] [lit 1; lit 2; lit 3] (lit 0)
  /\ get_deflections (lit 0.1) [lit 0; lit 0.1; lit 0.2]
       [lit 1; lit 2; lit 3]
     = get_deflections (lit 0.1) [lit 7; lit 7; lit 7] [lit 1; lit 2; lit 3].
Proof.
  apply (@integrators_read_only_mesh_length Qc exact). reflexivity.
Defined.

Lemma integrators_return_or_raise_witness :
  (exists sl dl : list Qc,
     get_slopes (lit 0.1) [lit 0; lit 0.1] [lit 1; lit 2; lit 3] (lit 4)
     = Ok sl
     /\ get_deflections (lit 0.1) [lit 0; lit 0.1] [lit 1; lit 2; lit 3]
        = Ok dl
     /\ List.length sl = 2%nat
     /\ List.length dl = 2%nat
     /\ ([lit 0; lit 0.1] = [] -> sl = [] /\ dl = [])
     /\ ([lit 0; lit 0.1] <> [] ->
         nth_error sl 0 = Some (lit 4) /\ nth_error dl 0 = Some (lit 0)))
  /\ (get_slopes (lit 0.1) [lit 0; lit 0.1; lit 0.2] [lit 1; lit 2] (lit 4)
      = Raise IndexError
      /\ get_deflections (lit 0.1) [lit 0; lit 0.1; lit 0.2] [lit 1; lit 2]
         = Raise IndexError).
Proof.
  split.
  - apply (proj1 (@integrators_return_or_raise Qc exact (lit 0.1)
                    [lit 0; lit 0.1] [lit 1; lit 2; lit 3] (lit 4))).
    left. cbn. lia.
  - apply (proj2 (@integrators_return_or_raise Qc exact (lit 0.1)
                    [lit 0; lit 0.1; lit 0.2] [lit 1; lit 2] (lit 4)));
      cbn; lia.
Defined.

(** ** The stages, in exact arithmetic *)

Section FurtherExact.
Local Open Scope num_scope.

Lemma of_nat_succ (i : nat) : of_nat (S i) = of_nat i + lit 1.
Proof.
  apply Qc_eq_Q. exact_ops. rewrite this_plus, !this_of_nat, this_lit.
  apply inject_Z_succ.
Qed.

Lemma lit_2 : Q2Qc 2 = (1 + 1)%Qc.
Proof. now apply Qc_is_canon. Qed.

Lemma nth_scaled (k : Qc) (ys : list Qc) (j : nat) :
  nth j (map (fun v => k * v) ys) (lit 0) = k * nth j ys (lit 0).
Proof.
  replace (lit 0) with (k * lit 0) at 1 by (exact_ops; ring).
  apply map_nth with (f := fun v => k * v).
Qed.

Lemma moment_factor (w L x : Qc) :
  moment w L x = w / lit 2 * x * (L - x).
Proof. unfold moment. exact_ops. field. discriminate. Qed.

Lemma moment_nonneg (w L x : Qc) :
  (lit 0 <= w)%Qc -> (lit 0 <= x <= L)%Qc -> (lit 0 <= moment w L x)%Qc.
Proof.
  intros Hw [Hx0 HxL]. rewrite moment_factor. exact_ops.
  to_Q. to_Q_in Hw. to_Q_in Hx0. to_Q_in HxL.
  assert (H1 : (0 <= w * (1 # 2) * x)%Q)
    by (apply Qmult_le_0_compat; [apply Qmult_le_0_compat|]; lra).
  assert (H2 : (0 <= w * (1 # 2) * x * (L - x))%Q)
    by (apply Qmult_le_0_compat; lra).
  assert (Hd : (w / 2 == w * (1 # 2))%Q) by field.
  rewrite Hd. exact H2.
Qed.

(** The moment is the parabola [w/2 * x * (L - x)]: symmetric about
    mid-span, and for a load that is not negative it is not negative
    anywhere on the span. *)
Theorem moment_parabola (w L x : Qc) :
  moment w L x = w / lit 2 * x * (L - x)
  /\ moment w L (L - x) = moment w L x
  /\ ((lit 0 <= w)%Qc -> (lit 0 <= x <= L)%Qc -> (lit 0 <= moment w L x)%Qc).
Proof.
  split; [apply moment_factor|]. split; [apply moment_symmetric|].
  apply moment_nonneg.
Qed.

Lemma moment_parabola_witness :
  (lit 0 <= moment (lit 10) (lit 4) (lit 1))%Qc.
Proof.
  apply (proj2 (proj2 (@moment_parabola (lit 10) (lit 4) (lit 1))));
    [|split]; discriminate.
Defined.

(** Curvature times flexural rigidity gives the moment back: whatever
    [get_curvatures] returns, multiplied element by element by
    [modulus * inertia], is the moment sequence it was given. *)
Theorem get_curvatures_round_trip
  (bending_moment_list : list Qc) (modulus inertia : Qc)
  (curvature_list : list Qc) :
  get_curvatures bending_moment_list modulus inertia = Ok curvature_list ->
  map (fun k => k * (modulus * inertia)) curvature_list
  = bending_moment_list.
Proof.
  intros E.
  destruct (Qc_eq_dec (modulus * inertia) (lit 0)) as [Hz|Hnz].
  - destruct bending_moment_list as [|m bm].
    + cbn in E. now injection E as <-.
    + rewrite get_curvatures_not_finite in E by (assumption || discriminate).
      discriminate.
  - rewrite get_curvatures_quotients in E by assumption.
    injection E as <-. rewrite map_map.
    rewrite <- (map_id bending_moment_list) at 2.
    apply map_ext. intros m. exact_ops. field.
    split; intros Hz; apply Hnz; rewrite Hz; ring.
Qed.

Lemma get_curvatures_round_trip_witness :
  map (fun k => k * (lit 10 * lit 100))
    [lit 0; lit (49 # 20); lit (24 # 5)]
  = [lit 0; lit 2450; lit 4800].
Proof.
  apply get_curvatures_round_trip. qc_eval.
Defined.

(** The trapezoidal sum is exact on a straight line: over curvatures
    [a + b * t_i] sampled at [t_i = i * dx], the slope at index [i] is
    [seed + a * t_i + b * t_i^2 / 2], the integral itself. *)
Theorem get_slopes_exact_on_affine
  (dx a b seed : Qc) (x_axis : list Qc) :
  get_slopes dx x_axis
    (map (fun i => a + b * (of_nat i * dx)) (seq 0 (List.length x_axis)))
    seed
  = Ok (map (fun i => seed + a * (of_nat i * dx)
                      + b * (of_nat i * dx) * (of_nat i * dx) / lit 2)
            (seq 0 (List.length x_axis))).
Proof.
  set (n := List.length x_axis).
  set (ys := map (fun i => a + b * (of_nat i * dx)) (seq 0 n)).
  rewrite get_slopes_running
    by (left; unfold ys; now rewrite length_map, length_seq).
  fold n. f_equal. apply map_ext_in. intros i Hi.
  apply in_seq in Hi. cbn [Nat.add] in Hi.
  assert (Hys : forall j : nat, (j < n)%nat ->
                  nth j ys (lit 0) = a + b * (of_nat j * dx))
    by (intros j Hj; unfold ys; now rewrite nth_map_seq).
  induction i as [|i IH].
  - cbn [running]. change (of_nat 0) with (lit 0).
    exact_ops. field. discriminate.
  - cbn [running]. rewrite IH, !Hys by lia.
    rewrite of_nat_succ. exact_ops. rewrite lit_2. field.
    discriminate.
Qed.

(** *** Linearity and the choice of the first seed *)

Lemma running_scaled (k h : Qc) (ys : list Qc) (seed : Qc) (i : nat) :
  running h (map (fun v => k * v) ys) (k * seed) i
  = k * running h ys seed i.
Proof.
  induction i as [|i IH]; cbn [running]; [reflexivity|].
  rewrite IH, !nth_scaled. exact_ops. ring.
Qed.

(** The integrators are homogeneous: curvatures and seed multiplied by [k]
    give slopes multiplied by [k], and slopes multiplied by [k] give
    deflections multiplied by [k]. *)
Theorem integrators_homogeneous
  (k dx : Qc) (x_axis ys : list Qc) (seed : Qc) (out : list Qc) :
  (get_slopes dx x_axis ys seed = Ok out ->
   get_slopes dx x_axis (map (fun v => k * v) ys) (k * seed)
   = Ok (map (fun v => k * v) out))
  /\ (get_deflections dx x_axis ys = Ok out ->
      get_deflections dx x_axis (map (fun v => k * v) ys)
      = Ok (map (fun v => k * v) out)).
Proof.
  split; intros E.
  - apply get_slopes_cases in E as [Hlen ->].
    rewrite get_slopes_running by now rewrite length_map.
    f_equal. rewrite map_map. apply map_ext. intros i.
    apply running_scaled.
  - apply get_deflections_cases in E as [Hlen ->].
    rewrite get_deflections_running by now rewrite length_map.
    f_equal. rewrite map_map. apply map_ext. intros i.
    replace (lit 0) with (k * lit 0) at 1 by (exact_ops; ring).
    apply running_scaled.
Qed.

Lemma integrators_homogeneous_witness :
  get_slopes (lit 0.1) [lit 0; lit 0.1; lit 0.2]
    (map (fun v => lit 3 * v) [lit 1; lit 2; lit 3]) (lit 3 * lit 5)
  = Ok (map (fun v => lit 3 * v) [lit 5; lit 5.15; lit 5.4])
  /\ get_deflections (lit 0.1) [lit 0; lit 0.1; lit 0.2]
       (map (fun v => lit 3 * v) [lit 0; lit 0.15; lit 0.4])
     = Ok (map (fun v => lit 3 * v) [lit 0; lit 0.0075; lit 0.035]).
Proof.
  split.
  - apply (proj1 (@integrators_homogeneous (lit 3) (lit 0.1)
                    [lit 0; lit 0.1; lit 0.2] [lit 1; lit 2; lit 3] (lit 5)
                    [lit 5; lit 5.15; lit 5.4])).
    qc_eval.
  - apply (proj2 (@integrators_homogeneous (lit 3) (lit 0.1)
                    [lit 0; lit 0.1; lit 0.2] [lit 0; lit 0.15; lit 0.4]
                    (lit 0) [lit 0; lit 0.0075; lit 0.035])).
    qc_eval.
Defined.

(** In exact arithmetic the first seed is arbitrary, as main.py says of
    it: whatever seed the first pass starts from, subtracting the mid-span
    slope it finds gives the same corrected seed, hence the same corrected
    slopes. *)
Theorem corrected_seed_independent_of_first_seed
  (dx : Qc) (x_axis curvature_list : list Qc)
  (seed_a seed_b : Qc) (slopes_a slopes_b : list Qc) (mid_a mid_b : Qc) :
  get_slopes dx x_axis curvature_list seed_a = Ok slopes_a ->
  index slopes_a (List.length slopes_a / 2) = Ok mid_a ->
  get_slopes dx x_axis curvature_list seed_b = Ok slopes_b ->
  index slopes_b (List.length slopes_b / 2) = Ok mid_b ->
  seed_a + (lit 0 - mid_a) = seed_b + (lit 0 - mid_b)
  /\ get_slopes dx x_axis curvature_list (seed_a + (lit 0 - mid_a))
     = get_slopes dx x_axis curvature_list (seed_b + (lit 0 - mid_b)).
Proof.
  intros Ea Ha Eb Hb.
  apply get_slopes_cases in Ea as [Hlen ->].
  apply get_slopes_cases in Eb as [_ ->].
  rewrite length_map, length_seq in *.
  apply index_Ok in Ha, Hb.
  assert (Hi : (List.length x_axis / 2 < List.length x_axis)%nat).
  { destruct (List.length x_axis) as [|n]; [discriminate|].
    apply Nat.div_lt; lia. }
  set (mid := (List.length x_axis / 2)%nat) in *.
  rewrite nth_error_map_seq in Ha, Hb by assumption.
  assert (Hseed : seed_a + (lit 0 - mid_a) = seed_b + (lit 0 - mid_b)).
  { assert (Ha' : running (dx / lit 2) curvature_list seed_a mid = mid_a)
      by congruence.
    assert (Hb' : running (dx / lit 2) curvature_list seed_b mid = mid_b)
      by congruence.
    rewrite <- Ha', <- Hb'.
    rewrite running_shift with (s := seed_a) (t := seed_b).
    exact_ops. ring. }
  split; [exact Hseed | now rewrite Hseed].
Qed.

Lemma corrected_seed_independent_of_first_seed_witness :
  lit 0 + (lit 0 - lit 0.15) = lit 5 + (lit 0 - lit 5.15)
  /\ get_slopes (lit 0.1) [lit 0; lit 0.1; lit 0.2] [lit 1; lit 2; lit 3]
       (lit 0 + (lit 0 - lit 0.15))
     = get_slopes (lit 0.1) [lit 0; lit 0.1; lit 0.2] [lit 1; lit 2; lit 3]
         (lit 5 + (lit 0 - lit 5.15)).
Proof.
  apply (@corrected_seed_independent_of_first_seed (lit 0.1)
           [lit 0; lit 0.1; lit 0.2] [lit 1; lit 2; lit 3]
           (lit 0) (lit 5) [lit 0; lit 0.15; lit 0.4]
           [lit 5; lit 5.15; lit 5.4] (lit 0.15) (lit 5.15)); qc_eval.
Defined.

(** In binary64 the corrected seed depends on the first seed through
    rounding: on the same input, the first seeds 0 and 5 give corrected
    seeds that differ in their last digits. *)
Remark corrected_seed_binary64_rounding :
  let dx : float := lit 0.1 in
  let x_axis : list float := [lit 0; lit 0.1; lit 0.2] in
  let curvature_list : list float := [lit 1; lit 2; lit 3] in
  exists slopes_a slopes_b : list float,
    get_slopes dx x_axis curvature_list (lit 0) = Ok slopes_a
    /\ get_slopes dx x_axis curvature_list (lit 5) = Ok slopes_b
    /\ lit 0 + (lit 0 - nth 1 slopes_a (lit 0))
       <> lit 5 + (lit 0 - nth 1 slopes_b (lit 0)).
Proof.
  cbv zeta. do 2 eexists.
  split; [vm_compute; reflexivity|]. split; [vm_compute; reflexivity|].
  vm_compute. discriminate.
Qed.

(** *** The mesh: where its middle index falls, and short spans *)

(** The points of a mesh over a whole number of steps. *)
Lemma mesh_point (dx : Qc) (n i : nat) :
  (i <= n)%nat ->
  nth i (np_append
           (map (fun j => lit 0 + of_nat j * ((lit 0 + dx) - lit 0))
                (seq 0 n))
           (of_nat n * dx)) (lit 0)
  = of_nat i * dx.
Proof.
  intros Hi. destruct (Nat.eq_dec i n) as [->|Hne].
  - now rewrite nth_mesh_last.
  - rewrite nth_mesh_inner by lia. exact_ops. ring.
Qed.

Lemma mesh_length (g : nat -> Qc) (n : nat) (L : Qc) :
  List.length (np_append (map g (seq 0 n)) L) = S n.
Proof.
  unfold np_append. rewrite length_app, length_map, length_seq.
  cbn [List.length]. lia.
Qed.

(** The index [len/2] that main.py takes for mid-span is at [length/2]
    when the span is an even number of steps, and half a step past it
    when the span is an odd number of steps. *)
Theorem midspan_index_position (dx : Qc) (m : nat) :
  (lit 0 < dx)%Qc ->
  ((1 <= m)%nat ->
   let length := of_nat (2 * m) * dx in
   exists x0 : list Qc,
     np_arange (lit 0) length dx = Ok x0
     /\ let x_axis := np_append x0 length in
        index x_axis (List.length x_axis / 2) = Ok (length / lit 2))
  /\ (let length := of_nat (2 * m + 1) * dx in
      exists x0 : list Qc,
        np_arange (lit 0) length dx = Ok x0
        /\ let x_axis := np_append x0 length in
           index x_axis (List.length x_axis / 2)
           = Ok (length / lit 2 + dx / lit 2)).
Proof.
  intros Hdx. split.
  - intros Hm length.
    eexists. split; [apply np_arange_whole_steps; [assumption | lia]|].
    cbv zeta. rewrite mesh_length.
    replace (S (2 * m) / 2)%nat with m
      by (apply Nat.div_unique with (r := 1%nat); lia).
    rewrite index_nth with (d := lit 0) by (rewrite mesh_length; lia).
    unfold length. rewrite mesh_point by lia. f_equal.
    apply Qc_eq_Q. exact_ops.
    rewrite this_div, !this_mult, !this_of_nat, this_lit.
    rewrite Nat2Z.inj_mul, inject_Z_mult. cbn [Z.of_nat]. field.
  - intros length.
    eexists. split; [apply np_arange_whole_steps; [assumption | lia]|].
    cbv zeta. rewrite mesh_length.
    replace (S (2 * m + 1) / 2)%nat with (S m)
      by (apply Nat.div_unique with (r := 0%nat); lia).
    rewrite index_nth with (d := lit 0) by (rewrite mesh_length; lia).
    unfold length. rewrite mesh_point by lia. f_equal.
    apply Qc_eq_Q. exact_ops.
    rewrite this_plus, !this_div, !this_mult, !this_of_nat, this_lit.
    rewrite inject_Z_succ, Nat2Z.inj_add, Nat2Z.inj_mul,
      inject_Z_plus, inject_Z_mult.
    cbn [Z.of_nat]. field.
Qed.

Lemma midspan_index_position_witness :
  (exists x0 : list Qc,
     np_arange (lit 0) (of_nat (2 * 1) * lit 0.1) (lit 0.1) = Ok x0
     /\ let x_axis := np_append x0 (of_nat (2 * 1) * lit 0.1) in
        index x_axis (List.length x_axis / 2)
        = Ok (of_nat (2 * 1) * lit 0.1 / lit 2))
  /\ (exists x0 : list Qc,
        np_arange (lit 0) (of_nat (2 * 1 + 1) * lit 0.1) (lit 0.1) = Ok x0
        /\ let x_axis := np_append x0 (of_nat (2 * 1 + 1) * lit 0.1) in
           index x_axis (List.length x_axis / 2)
           = Ok (of_nat (2 * 1 + 1) * lit 0.1 / lit 2 + lit 0.1 / lit 2)).
Proof.
  assert (Hdx : (lit 0 < lit 0.1)%Qc) by reflexivity.
  destruct (@midspan_index_position (lit 0.1) 1%nat Hdx) as [Heven Hodd].
  split; [apply Heven; apply le_n | exact Hodd].
Defined.

(** Spans shorter than a step, and empty spans.  A positive length below
    the step gives the two-point mesh [0, length]; a length that is not
    positive gives the single point [length]. *)
Theorem short_span_mesh (length dx : Qc) :
  (lit 0 < dx)%Qc ->
  ((lit 0 < length)%Qc -> (length < dx)%Qc ->
   exists x0 : list Qc,
     np_arange (lit 0) length dx = Ok x0
     /\ np_append x0 length = [lit 0; length])
  /\ ((length <= lit 0)%Qc ->
      np_arange (lit 0) length dx = Ok []
      /\ np_append [] length = [length]).
Proof.
  intros Hdx. to_Q_in Hdx.
  assert (Hnz : Qc_eq_bool dx (Q2Qc 0) = false).
  { apply Qc_eq_bool_false. intros ->. revert Hdx. apply Qlt_irrefl. }
  assert (Hq : (this ((length - Q2Qc 0) / dx)%Qc == this length / this dx)%Q).
  { to_Q. field. lra. }
  split.
  - intros HL Hlt. to_Q_in HL. to_Q_in Hlt.
    unfold np_arange. cbn [py_truediv ceiling exact].
    unfold Qc_py_truediv. rewrite Hnz. cbn [bind]. exact_ops.
    rewrite (Qceiling_comp _ _ Hq).
    assert (Hc : Qceiling (this length / this dx) = 1%Z).
    { pose proof (Qceiling_lt (this length / this dx)) as Hlo.
      pose proof (Qle_ceiling (this length / this dx)) as Hhi.
      assert (H0 : (0 < this length / this dx)%Q)
        by (apply Qlt_shift_div_l; lra).
      assert (H1 : (this length / this dx < 1)%Q)
        by (apply Qlt_shift_div_r; lra).
      set (c := Qceiling (this length / this dx)) in *.
      assert (Hc0 : (inject_Z 0 < inject_Z c)%Q)
        by (change (inject_Z 0) with 0%Q; lra).
      assert (Hc1 : (inject_Z (c - 1) < inject_Z 1)%Q)
        by (change (inject_Z 1) with 1%Q; lra).
      rewrite <- Zlt_Qlt in Hc0, Hc1. lia. }
    rewrite Hc. change (Z.to_nat 1) with 1%nat.
    eexists. split; [reflexivity|].
    cbn [seq map np_append app]. apply (f_equal (fun v => [v; length])).
    apply Qc_eq_Q. rewrite arange_value.
    rewrite this_lit. cbn [Z.of_nat]. ring.
  - intros HL. to_Q_in HL. split; [|reflexivity].
    unfold np_arange. cbn [py_truediv ceiling exact].
    unfold Qc_py_truediv. rewrite Hnz. cbn [bind]. exact_ops.
    rewrite (Qceiling_comp _ _ Hq).
    assert (Hc : (Qceiling (this length / this dx) <= 0)%Z).
    { pose proof (Qceiling_lt (this length / this dx)) as Hlo.
      assert (H0 : (this length / this dx <= 0)%Q)
        by (apply Qle_shift_div_r; lra).
      set (c := Qceiling (this length / this dx)) in *.
      assert (Hc1 : (inject_Z (c - 1) < inject_Z 0)%Q)
        by (change (inject_Z 0) with 0%Q; lra).
      rewrite <- Zlt_Qlt in Hc1. lia. }
    destruct (Qceiling (this length / this dx)) as [|p|p];
      [reflexivity | lia | reflexivity].
Qed.

Lemma short_span_mesh_witness :
  (exists x0 : list Qc,
     np_arange (lit 0) (lit 0.2) (lit 0.3) = Ok x0
     /\ np_append x0 (lit 0.2) = [lit 0; lit 0.2])
  /\ (np_arange (lit 0) (lit (-1)) (lit 0.3) = Ok []
      /\ np_append [] (lit (-1)) = [lit (-1)]).
Proof.
  assert (Hdx : (lit 0 < lit 0.3)%Qc) by reflexivity.
  split.
  - apply (proj1 (@short_span_mesh (lit 0.2) (lit 0.3) Hdx)); reflexivity.
  - apply (proj2 (@short_span_mesh (lit (-1)) (lit 0.3) Hdx)). discriminate.
Defined.

(** *** What the run prints *)

Lemma Qc_py_truediv_Ok (a b v : Qc) :
  Qc_py_truediv a b = Ok v -> b <> Q2Qc 0 /\ v = (a / b)%Qc.
Proof.
  unfold Qc_py_truediv, Qc_eq_bool.
  destruct (Qc_eq_dec b (Q2Qc 0)); [discriminate|].
  intros E. injection E as <-. now split.
Qed.

Lemma Qc_np_true_divide_Ok (a b v : Qc) :
  Qc_np_true_divide a b = Ok v -> b <> Q2Qc 0 /\ v = (a / b)%Qc.
Proof.
  unfold Qc_np_true_divide, Qc_eq_bool.
  destruct (Qc_eq_dec b (Q2Qc 0)); [discriminate|].
  intros E. injection E as <-. now split.
Qed.

(** The closed form of line 99 is negative for a positive load, a nonzero
    length and a positive [modulus * inertia]. *)
Lemma closed_form_negative (load length rigidity : Q) :
  (0 < load)%Q -> ~ (length == 0)%Q -> (0 < rigidity)%Q ->
  (- (5 / 384) * (load * (length * (length * (length * (length * 1)))))
   / rigidity < 0)%Q.
Proof.
  intros Hw HL HR.
  assert (H2 : (0 < length * length)%Q).
  { pose proof (Qsquare_nonneg length) as Hsq.
    destruct (Qeq_dec (length * length) 0) as [Hz|Hz]; [|lra].
    apply Qmult_integral in Hz. tauto. }
  assert (H4 : (0 < (length * length) * (length * length))%Q)
    by (apply Qmult_lt_0_compat; assumption).
  assert (Hn : (0 < load * ((length * length) * (length * length)))%Q)
    by (apply Qmult_lt_0_compat; assumption).
  assert (Hq : (0 < load * ((length * length) * (length * length))
                    / rigidity)%Q)
    by (apply Qlt_shift_div_l; lra).
  assert (E : (- (5 / 384)
               * (load * (length * (length * (length * (length * 1)))))
               / rigidity
               == - ((5 # 384)
                     * (load * ((length * length) * (length * length))
                        / rigidity)))%Q)
    by (field; lra).
  rewrite E.
  assert (H5 : (0 < (5 # 384)
                    * (load * ((length * length) * (length * length))
                       / rigidity))%Q)
    by (apply Qmult_lt_0_compat; [reflexivity | assumption]).
  lra.
Qed.

(** The number the run prints as its error is never positive for a beam
    with a positive load, a nonzero length and a positive
    [modulus * inertia]: line 102 divides the absolute difference by the
    closed form itself, which is negative, not by its absolute value. *)
Theorem printed_error_not_positive
  (load length dx inertia modulus : Qc) (r : report Qc) :
  pipeline load length dx inertia modulus = Ok r ->
  (lit 0 < load)%Qc -> length <> lit 0 -> (lit 0 < modulus * inertia)%Qc ->
  (mid_deflection_theor r < lit 0)%Qc /\ (rel_error r <= lit 0)%Qc.
Proof.
  intros E Hw HL HR.
  apply pipeline_stages in E
    as (x0 & sl0 & sm & _ & _ & _ & _ & _ & _ & _ & _ & _ & Hth & Her).
  cbn [py_truediv np_true_divide exact] in Hth, Her.
  apply Qc_py_truediv_Ok in Hth as [_ Hth].
  apply Qc_np_true_divide_Ok in Her as [Hnz Her].
  assert (Hneg : (mid_deflection_theor r < lit 0)%Qc).
  { rewrite Hth. exact_ops. to_Q. to_Q_in Hw. to_Q_in HR.
    apply closed_form_negative; try assumption.
    intros Hz. apply HL. apply Qc_is_canon. now rewrite this_lit. }
  split; [exact Hneg|].
  rewrite Her. exact_ops. to_Q_in Hneg. to_Q.
  set (t := this (mid_deflection_theor r)) in *.
  set (a := Qabs _).
  assert (Ha : (0 <= a)%Q) by apply Qabs_nonneg.
  assert (Hq : (0 <= a / - t)%Q) by (apply Qle_shift_div_l; lra).
  assert (Eq : (a / t == - (a / - t))%Q) by (field; lra).
  rewrite Eq. lra.
Qed.

Lemma printed_error_not_positive_witness :
  exists r : report Qc,
    main = Ok r
    /\ (mid_deflection_theor r < lit 0)%Qc /\ (rel_error r <= lit 0)%Qc.
Proof.
  eexists. split; [vm_compute; reflexivity|].
  apply (@printed_error_not_positive (lit 10 * pow (lit 10) 3) (lit 5)
           (lit 0.1) (lit 1 / lit 12 * lit 0.3 * pow (lit 0.5) 3)
           (lit 30 * pow (lit 10) 9)).
  - vm_compute. reflexivity.
  - reflexivity.
  - discriminate.
  - reflexivity.
Defined.

(** *** Runs over a span of an even number of steps *)

(** What a returning run over [2m] steps computed, stage by stage. *)
Lemma even_span_stages (load dx inertia modulus : Qc) (m : nat)
  (r : report Qc) :
  (lit 0 < dx)%Qc -> (1 <= m)%nat ->
  pipeline load (of_nat (2 * m) * dx) dx inertia modulus = Ok r ->
  (forall i : nat, (i <= 2 * m)%nat ->
     nth i (mesh r) (lit 0) = of_nat i * dx)
  /\ List.length (mesh r) = S (2 * m)
  /\ moments r = map (moment load (of_nat (2 * m) * dx)) (mesh r)
  /\ modulus * inertia <> lit 0
  /\ curvatures r = map (fun v => v / (modulus * inertia)) (moments r)
  /\ exists seed : Qc,
       running (dx / lit 2) (curvatures r) seed m = lit 0
       /\ slopes r = map (running (dx / lit 2) (curvatures r) seed)
                         (seq 0 (S (2 * m)))
       /\ deflections r = map (running (dx / lit 2) (slopes r) (lit 0))
                              (seq 0 (S (2 * m))).
Proof.
  intros Hdx Hm E.
  apply pipeline_stages in E
    as (x0 & sl0 & sm & Hx0 & Hmesh & Hbm & Hc & Hsl0 & Hsm & Hsl & Hdl & _).
  rewrite np_arange_whole_steps in Hx0 by (assumption || lia).
  injection Hx0 as <-.
  assert (Hlen : List.length (mesh r) = S (2 * m))
    by (rewrite Hmesh; apply mesh_length).
  rewrite get_bending_moments_map in Hbm. injection Hbm as Hbm.
  assert (Hnz : modulus * inertia <> lit 0).
  { intros Hz. rewrite get_curvatures_not_finite in Hc;
      [discriminate | assumption |].
    rewrite <- Hbm. destruct (mesh r); [discriminate Hlen | discriminate]. }
  rewrite get_curvatures_quotients in Hc by assumption.
  injection Hc as Hc.
  apply get_slopes_cases in Hsl0 as [_ ->].
  apply get_slopes_cases in Hsl as [_ Hsl].
  apply get_deflections_cases in Hdl as [_ Hdl].
  rewrite length_map, length_seq, Hlen in Hsm.
  rewrite Hlen in Hsl, Hdl.
  assert (Hhalf : (S (2 * m) / 2 = m)%nat).
  { symmetry. apply Nat.div_unique with (r := 1%nat); lia. }
  rewrite Hhalf in Hsm. apply index_Ok in Hsm.
  rewrite nth_error_map_seq in Hsm by lia.
  repeat apply conj; try (symmetry; assumption); try assumption.
  - intros i Hi. rewrite Hmesh. now apply mesh_point.
  - exists (lit 0 + (lit 0 - sm)). repeat apply conj; try assumption.
    rewrite running_shift with (t := lit 0).
    replace (running (dx / lit 2) (curvatures r) (lit 0) m) with sm
      by congruence.
    exact_ops. ring.
Qed.

Lemma even_span_curvature_symmetric (load dx inertia modulus : Qc) (m : nat)
  (x_axis bm c : list Qc) :
  (forall i : nat, (i <= 2 * m)%nat ->
     nth i x_axis (lit 0) = of_nat i * dx) ->
  List.length x_axis = S (2 * m) ->
  bm = map (moment load (of_nat (2 * m) * dx)) x_axis ->
  c = map (fun v => v / (modulus * inertia)) bm ->
  forall k : nat, (k <= m)%nat ->
    nth (m + k) x_axis (lit 0)
    = of_nat (2 * m) * dx - nth (m - k) x_axis (lit 0)
    /\ nth (m + k) bm (lit 0) = nth (m - k) bm (lit 0)
    /\ nth (m + k) c (lit 0) = nth (m - k) c (lit 0).
Proof.
  intros Hpt Hlen -> -> k Hk.
  assert (Hx : nth (m + k) x_axis (lit 0)
               = of_nat (2 * m) * dx - nth (m - k) x_axis (lit 0)).
  { rewrite !Hpt by lia.
    replace (m + k)%nat with (2 * m - (m - k))%nat at 1 by lia.
    now rewrite of_nat_complement by lia. }
  assert (Hbm : nth (m + k) (map (moment load (of_nat (2 * m) * dx)) x_axis)
                  (lit 0)
                = nth (m - k) (map (moment load (of_nat (2 * m) * dx)) x_axis)
                    (lit 0)).
  { rewrite !nth_map_in with (d' := lit 0) by lia.
    rewrite Hx. apply moment_symmetric. }
  split; [exact Hx|]. split; [exact Hbm|].
  set (bm := map (moment load (of_nat (2 * m) * dx)) x_axis) in *.
  assert (Hb : List.length bm = S (2 * m))
    by (unfold bm; now rewrite length_map).
  rewrite !nth_map_in with (d' := lit 0) by lia.
  now rewrite Hbm.
Qed.

(** The computed beam is symmetric.  In every returning run over a span
    of [2m] steps the mesh, the moments and the curvatures mirror about
    the middle index [m], the corrected slopes are antisymmetric about it
    and the deflections symmetric: the deflected shape is the same seen
    from either support. *)
Theorem even_span_run_symmetric
  (load dx inertia modulus : Qc) (m : nat) (r : report Qc) :
  (lit 0 < dx)%Qc -> (1 <= m)%nat ->
  pipeline load (of_nat (2 * m) * dx) dx inertia modulus = Ok r ->
  forall k : nat, (k <= m)%nat ->
    nth (m + k) (mesh r) (lit 0)
    = of_nat (2 * m) * dx - nth (m - k) (mesh r) (lit 0)
    /\ nth (m + k) (moments r) (lit 0) = nth (m - k) (moments r) (lit 0)
    /\ nth (m + k) (curvatures r) (lit 0)
       = nth (m - k) (curvatures r) (lit 0)
    /\ nth (m + k) (slopes r) (lit 0) = - nth (m - k) (slopes r) (lit 0)
    /\ nth (m + k) (deflections r) (lit 0)
       = nth (m - k) (deflections r) (lit 0).
Proof.
  intros Hdx Hm E k Hk.
  destruct (@even_span_stages load dx inertia modulus m r Hdx Hm E)
    as (Hpt & Hlen & Hbm & Hnz & Hc & seed & Hzero & Hsl & Hdl).
  pose proof (@even_span_curvature_symmetric load dx inertia modulus m
                (mesh r) (moments r) (curvatures r) Hpt Hlen Hbm Hc) as Hsym.
  destruct (Hsym k Hk) as (Hx & Hb & Hcs).
  assert (Hanti : forall j : nat, (j <= m)%nat ->
            nth (m + j) (slopes r) (lit 0) + nth (m - j) (slopes r) (lit 0)
            = lit 0).
  { intros j Hj. rewrite Hsl, !nth_map_seq by lia.
    apply running_antisymmetric; [|assumption|assumption].
    intros i Hi. now apply Hsym. }
  repeat apply conj; try assumption.
  - specialize (Hanti k Hk). exact_ops.
    transitivity (nth (m + k) (slopes r) (Q2Qc 0)
                  + nth (m - k) (slopes r) (Q2Qc 0)
                  - nth (m - k) (slopes r) (Q2Qc 0))%Qc; [ring|].
    rewrite Hanti. ring.
  - rewrite Hdl, !nth_map_seq by lia.
    now apply running_symmetric.
Qed.

Lemma even_span_run_symmetric_witness :
  exists r : report Qc,
    pipeline (lit 8) (of_nat (2 * 2) * lit 0.5) (lit 0.5) (lit 3) (lit 2)
    = Ok r
    /\ nth (2 + 1) (mesh r) (lit 0)
       = of_nat (2 * 2) * lit 0.5 - nth (2 - 1) (mesh r) (lit 0)
    /\ nth (2 + 1) (moments r) (lit 0) = nth (2 - 1) (moments r) (lit 0)
    /\ nth (2 + 1) (curvatures r) (lit 0)
       = nth (2 - 1) (curvatures r) (lit 0)
    /\ nth (2 + 1) (slopes r) (lit 0) = - nth (2 - 1) (slopes r) (lit 0)
    /\ nth (2 + 1) (deflections r) (lit 0)
       = nth (2 - 1) (deflections r) (lit 0).
Proof.
  eexists. split; [vm_compute; reflexivity|].
  apply (@even_span_run_symmetric (lit 8) (lit 0.5) (lit 3) (lit 2) 2%nat).
  - reflexivity.
  - lia.
  - vm_compute. reflexivity.
  - lia.
Defined.

(** *** Signs: the beam sags *)

Lemma half_step_nonneg (dx : Qc) : (lit 0 < dx)%Qc -> (lit 0 <= dx / lit 2)%Qc.
Proof.
  intros Hdx. to_Q_in Hdx. exact_ops. to_Q.
  apply Qle_shift_div_l; [reflexivity | lra].
Qed.

(** A running sum over an integrand that is not negative does not
    decrease; over one that is not positive it does not increase. *)
Lemma running_nondecreasing (h : Qc) (ys : list Qc) (seed : Qc) (n : nat) :
  (lit 0 <= h)%Qc ->
  (forall j : nat, (j <= n)%nat -> (lit 0 <= nth j ys (lit 0))%Qc) ->
  forall i j : nat, (i <= j <= n)%nat ->
    (running h ys seed i <= running h ys seed j)%Qc.
Proof.
  intros Hh Hys i j [Hij Hjn].
  induction j as [|j IH].
  - replace i with 0%nat by lia. apply Qcle_refl.
  - destruct (Nat.eq_dec i (S j)) as [->|Hne]; [apply Qcle_refl|].
    apply Qcle_trans with (y := running h ys seed j); [apply IH; lia|].
    cbn [running].
    pose proof (Hys j ltac:(lia)) as H0.
    pose proof (Hys (S j) ltac:(lia)) as H1.
    exact_ops. to_Q. to_Q_in Hh. to_Q_in H0. to_Q_in H1.
    assert (Hp : (0 <= h * (nth (S j) ys (Q2Qc 0) + nth j ys (Q2Qc 0)))%Q)
      by (apply Qmult_le_0_compat; lra).
    lra.
Qed.

Lemma running_nonincreasing (h : Qc) (ys : list Qc) (seed : Qc) (n : nat) :
  (lit 0 <= h)%Qc ->
  (forall j : nat, (j <= n)%nat -> (nth j ys (lit 0) <= lit 0)%Qc) ->
  forall i j : nat, (i <= j <= n)%nat ->
    (running h ys seed j <= running h ys seed i)%Qc.
Proof.
  intros Hh Hys i j [Hij Hjn].
  induction j as [|j IH].
  - replace i with 0%nat by lia. apply Qcle_refl.
  - destruct (Nat.eq_dec i (S j)) as [->|Hne]; [apply Qcle_refl|].
    apply Qcle_trans with (y := running h ys seed j); [|apply IH; lia].
    cbn [running].
    pose proof (Hys j ltac:(lia)) as H0.
    pose proof (Hys (S j) ltac:(lia)) as H1.
    exact_ops. to_Q. to_Q_in Hh. to_Q_in H0. to_Q_in H1.
    assert (Hp : (0 <= h * - (nth (S j) ys (Q2Qc 0) + nth j ys (Q2Qc 0)))%Q)
      by (apply Qmult_le_0_compat; lra).
    assert (Hr : (h * - (nth (S j) ys (Q2Qc 0) + nth j ys (Q2Qc 0))
                  == - (h * (nth (S j) ys (Q2Qc 0) + nth j ys (Q2Qc 0))))%Q)
      by ring.
    lra.
Qed.

(** A mesh point of a span of [n] steps lies on the span. *)
Lemma mesh_point_on_span (dx : Qc) (n i : nat) :
  (lit 0 < dx)%Qc -> (i <= n)%nat ->
  (lit 0 <= of_nat i * dx <= of_nat n * dx)%Qc.
Proof.
  intros Hdx Hi. to_Q_in Hdx. exact_ops.
  split; to_Q; rewrite ?this_of_nat.
  - apply Qmult_le_0_compat; [|lra].
    change 0%Q with (inject_Z 0). rewrite <- Zle_Qle. lia.
  - apply Qmult_le_compat_r; [|lra].
    rewrite <- Zle_Qle. lia.
Qed.

(** The beam sags.  In every returning run over a span of [2m] steps, with
    a load that is not negative and a positive [modulus * inertia], no
    moment and no curvature is negative, the corrected slope is not
    positive up to mid-span and not negative from there on, and no
    deflection is positive. *)
Theorem even_span_run_sags
  (load dx inertia modulus : Qc) (m : nat) (r : report Qc) :
  (lit 0 < dx)%Qc -> (1 <= m)%nat ->
  (lit 0 <= load)%Qc -> (lit 0 < modulus * inertia)%Qc ->
  pipeline load (of_nat (2 * m) * dx) dx inertia modulus = Ok r ->
  forall i : nat, (i <= 2 * m)%nat ->
    (lit 0 <= nth i (moments r) (lit 0))%Qc
    /\ (lit 0 <= nth i (curvatures r) (lit 0))%Qc
    /\ ((i <= m)%nat -> (nth i (slopes r) (lit 0) <= lit 0)%Qc)
    /\ ((m <= i)%nat -> (lit 0 <= nth i (slopes r) (lit 0))%Qc)
    /\ (nth i (deflections r) (lit 0) <= lit 0)%Qc.
Proof.
  intros Hdx Hm Hw HR E.
  destruct (@even_span_stages load dx inertia modulus m r Hdx Hm E)
    as (Hpt & Hlen & Hbm & Hnz & Hc & seed & Hzero & Hsl & Hdl).
  pose proof (@even_span_curvature_symmetric load dx inertia modulus m
                (mesh r) (moments r) (curvatures r) Hpt Hlen Hbm Hc) as Hsym.
  pose proof (half_step_nonneg Hdx) as Hh.
  assert (Hlb : List.length (moments r) = S (2 * m))
    by (rewrite Hbm; now rewrite length_map).
  assert (Hmom : forall j : nat, (j <= 2 * m)%nat ->
            (lit 0 <= nth j (moments r) (lit 0))%Qc).
  { intros j Hj. rewrite Hbm, nth_map_in with (d' := lit 0) by lia.
    rewrite Hpt by lia. apply moment_nonneg; [assumption|].
    now apply mesh_point_on_span. }
  assert (Hcur : forall j : nat, (j <= 2 * m)%nat ->
            (lit 0 <= nth j (curvatures r) (lit 0))%Qc).
  { intros j Hj. rewrite Hc, nth_map_in with (d' := lit 0) by lia.
    pose proof (Hmom j Hj) as H0.
    exact_ops. to_Q. to_Q_in H0. to_Q_in HR.
    apply Qle_shift_div_l; lra. }
  assert (Hslope : forall j : nat, (j <= 2 * m)%nat ->
            nth j (slopes r) (lit 0)
            = running (dx / lit 2) (curvatures r) seed j)
    by (intros j Hj; rewrite Hsl; now rewrite nth_map_seq by lia).
  assert (Hneg : forall j : nat, (j <= m)%nat ->
            (nth j (slopes r) (lit 0) <= lit 0)%Qc).
  { intros j Hj. rewrite Hslope by lia. rewrite <- Hzero.
    apply running_nondecreasing with (n := (2 * m)%nat);
      [assumption | assumption | lia]. }
  assert (Hpos : forall j : nat, (m <= j <= 2 * m)%nat ->
            (lit 0 <= nth j (slopes r) (lit 0))%Qc).
  { intros j Hj. rewrite Hslope by lia. rewrite <- Hzero.
    apply running_nondecreasing with (n := (2 * m)%nat);
      [assumption | assumption | lia]. }
  assert (Hfirst : forall j : nat, (j <= m)%nat ->
            (running (dx / lit 2) (slopes r) (lit 0) j <= lit 0)%Qc).
  { intros j Hj.
    apply (@running_nonincreasing (dx / lit 2) (slopes r) (lit 0) m
             Hh Hneg 0%nat j).
    lia. }
  assert (Hanti : forall j : nat, (j <= m)%nat ->
            nth (m + j) (slopes r) (lit 0) + nth (m - j) (slopes r) (lit 0)
            = lit 0).
  { intros j Hj. rewrite !Hslope by lia.
    apply running_antisymmetric; [|assumption|assumption].
    intros k Hk. now apply Hsym. }
  intros i Hi. repeat apply conj.
  - now apply Hmom.
  - now apply Hcur.
  - apply Hneg.
  - intros Hmi. apply Hpos. lia.
  - rewrite Hdl, nth_map_seq by lia.
    destruct (Nat.le_gt_cases i m) as [Him|Him]; [now apply Hfirst|].
    replace i with (m + (i - m))%nat by lia.
    rewrite running_symmetric by (assumption || lia).
    apply Hfirst. lia.
Qed.

Lemma even_span_run_sags_witness :
  exists r : report Qc,
    pipeline (lit 8) (of_nat (2 * 2) * lit 0.5) (lit 0.5) (lit 3) (lit 2)
    = Ok r
    /\ (lit 0 <= nth 1 (moments r) (lit 0))%Qc
    /\ (lit 0 <= nth 1 (curvatures r) (lit 0))%Qc
    /\ ((1 <= 2)%nat -> (nth 1 (slopes r) (lit 0) <= lit 0)%Qc)
    /\ ((2 <= 1)%nat -> (lit 0 <= nth 1 (slopes r) (lit 0))%Qc)
    /\ (nth 1 (deflections r) (lit 0) <= lit 0)%Qc.
Proof.
  eexists. split; [vm_compute; reflexivity|].
  apply (@even_span_run_sags (lit 8) (lit 0.5) (lit 3) (lit 2) 2%nat).
  - reflexivity.
  - lia.
  - discriminate.
  - reflexivity.
  - vm_compute. reflexivity.
  - lia.
Defined.

(** *** Linearity in the load *)

Lemma moment_scaled (k w L x : Qc) : moment (k * w) L x = k * moment w L x.
Proof. unfold moment. exact_ops. field. discriminate. Qed.

Lemma get_curvatures_scaled (k : Qc) (bm : list Qc) (modulus inertia : Qc)
  (c : list Qc) :
  get_curvatures bm modulus inertia = Ok c ->
  get_curvatures (map (fun v => k * v) bm) modulus inertia
  = Ok (map (fun v => k * v) c).
Proof.
  intros E.
  destruct (Qc_eq_dec (modulus * inertia) (lit 0)) as [Hz|Hnz].
  - destruct bm as [|m bm].
    + cbn in E. now injection E as <-.
    + rewrite get_curvatures_not_finite in E by (assumption || discriminate).
      discriminate.
  - rewrite get_curvatures_quotients in E |- * by assumption.
    injection E as <-. f_equal. rewrite !map_map.
    apply map_ext. intros m. exact_ops. field.
    split; intros Hz; apply Hnz; rewrite Hz; ring.
Qed.

Lemma get_slopes_scaled (k dx : Qc) (x_axis ys : list Qc) (seed : Qc)
  (out : list Qc) :
  get_slopes dx x_axis ys seed = Ok out ->
  get_slopes dx x_axis (map (fun v => k * v) ys) (k * seed)
  = Ok (map (fun v => k * v) out).
Proof.
  intros E. apply get_slopes_cases in E as [Hlen ->].
  rewrite get_slopes_running by now rewrite length_map.
  f_equal. rewrite map_map. apply map_ext. intros i.
  apply running_scaled.
Qed.

Lemma get_deflections_scaled (k dx : Qc) (x_axis ys out : list Qc) :
  get_deflections dx x_axis ys = Ok out ->
  get_deflections dx x_axis (map (fun v => k * v) ys)
  = Ok (map (fun v => k * v) out).
Proof.
  intros E. apply get_deflections_cases in E as [Hlen ->].
  rewrite get_deflections_running by now rewrite length_map.
  f_equal. rewrite map_map. apply map_ext. intros i.
  replace (lit 0) with (k * lit 0) at 1 by (exact_ops; ring).
  apply running_scaled.
Qed.

Lemma index_scaled (k : Qc) (l : list Qc) (i : nat) (v : Qc) :
  index l i = Ok v -> index (map (fun u => k * u) l) i = Ok (k * v).
Proof.
  intros E. apply index_Ok in E. apply index_Ok.
  now rewrite nth_error_map, E.
Qed.

(** The run is linear in the load.  If the run for a load [w] returns,
    the run for the load [k * w] ([k] not 0), over the same length, step,
    modulus and inertia, returns too: over the same mesh, with every
    moment, curvature, slope and deflection, the mid-span deflection and
    its closed form all multiplied by [k]. *)
Theorem run_linear_in_load
  (k load length dx inertia modulus : Qc) (r : report Qc) :
  pipeline load length dx inertia modulus = Ok r ->
  k <> lit 0 ->
  exists r' : report Qc,
    pipeline (k * load) length dx inertia modulus = Ok r'
    /\ mesh r' = mesh r
    /\ moments r' = map (fun v => k * v) (moments r)
    /\ curvatures r' = map (fun v => k * v) (curvatures r)
    /\ slopes r' = map (fun v => k * v) (slopes r)
    /\ deflections r' = map (fun v => k * v) (deflections r)
    /\ mid_deflection r' = k * mid_deflection r
    /\ mid_deflection_theor r' = k * mid_deflection_theor r.
Proof.
  intros E Hk.
  apply pipeline_stages in E
    as (x0 & sl0 & sm & Hx0 & Hmesh & Hbm & Hc & Hsl0 & Hsm & Hsl & Hdl
        & Hdm & Hth & Her).
  rewrite get_bending_moments_map in Hbm. injection Hbm as Hbm.
  assert (Hbm' : get_bending_moments (mesh r) (k * load) length
                 = Ok (map (fun v => k * v) (moments r))).
  { rewrite get_bending_moments_map, <- Hbm, map_map. f_equal.
    apply map_ext. intros x. apply moment_scaled. }
  apply get_curvatures_scaled with (k := k) in Hc.
  apply get_slopes_scaled with (k := k) in Hsl0.
  replace (k * lit 0) with (lit 0) in Hsl0 by (exact_ops; ring).
  apply index_scaled with (k := k) in Hsm.
  rewrite <- (length_map (fun v => k * v)) in Hsm.
  apply get_slopes_scaled with (k := k) in Hsl.
  replace (k * (lit 0 + (lit 0 - sm))) with (lit 0 + (lit 0 - k * sm))
    in Hsl by (exact_ops; ring).
  apply get_deflections_scaled with (k := k) in Hdl.
  apply index_scaled with (k := k) in Hdm.
  rewrite <- (length_map (fun v => k * v)) in Hdm.
  cbn [py_truediv np_true_divide exact] in Hth, Her.
  apply Qc_py_truediv_Ok in Hth as [HR Hth].
  apply Qc_np_true_divide_Ok in Her as [Hnz Her].
  assert (Hth' : py_truediv (- (lit 5 / lit 384) * (k * load * pow length 4))
                   (modulus * inertia)
                 = Ok (k * mid_deflection_theor r)).
  { cbn [py_truediv exact]. unfold Qc_py_truediv.
    rewrite Qc_eq_bool_false by assumption. f_equal.
    rewrite Hth. exact_ops. field.
    repeat split; try discriminate;
      intros Hz; apply HR; rewrite Hz; ring. }
  assert (Hnz' : k * mid_deflection_theor r <> Q2Qc 0).
  { intros Hz. apply Qcmult_integral in Hz. tauto. }
  unfold pipeline. rewrite Hx0. cbn [bind]. rewrite <- Hmesh.
  rewrite Hbm'. cbn [bind]. rewrite Hc. cbn [bind].
  rewrite Hsl0. cbn [bind]. rewrite Hsm. cbn [bind].
  rewrite Hsl. cbn [bind]. rewrite Hdl. cbn [bind].
  rewrite Hdm. cbn [bind]. rewrite Hth'. cbn [bind].
  cbn [np_true_divide exact]. unfold Qc_np_true_divide.
  rewrite Qc_eq_bool_false by assumption. cbn [bind].
  eexists. split; [reflexivity|].
  cbn [mesh moments curvatures slopes deflections mid_deflection
       mid_deflection_theor].
  repeat apply conj; reflexivity.
Qed.

Lemma run_linear_in_load_witness :
  exists r r' : report Qc,
    main = Ok r
    /\ pipeline (lit 2 * (lit 10 * pow (lit 10) 3)) (lit 5) (lit 0.1)
         (lit 1 / lit 12 * lit 0.3 * pow (lit 0.5) 3)
         (lit 30 * pow (lit 10) 9) = Ok r'
    /\ mesh r' = mesh r
    /\ moments r' = map (fun v => lit 2 * v) (moments r)
    /\ curvatures r' = map (fun v => lit 2 * v) (curvatures r)
    /\ slopes r' = map (fun v => lit 2 * v) (slopes r)
    /\ deflections r' = map (fun v => lit 2 * v) (deflections r)
    /\ mid_deflection r' = lit 2 * mid_deflection r
    /\ mid_deflection_theor r' = lit 2 * mid_deflection_theor r.
Proof.
  assert (E : exists r : report Qc,
            pipeline (lit 10 * pow (lit 10) 3) (lit 5) (lit 0.1)
              (lit 1 / lit 12 * lit 0.3 * pow (lit 0.5) 3)
              (lit 30 * pow (lit 10) 9) = Ok r)
    by (eexists; vm_compute; reflexivity).
  destruct E as [r E].
  assert (Hk : lit 2 <> lit 0) by discriminate.
  destruct (@run_linear_in_load (lit 2) (lit 10 * pow (lit 10) 3) (lit 5)
              (lit 0.1) (lit 1 / lit 12 * lit 0.3 * pow (lit 0.5) 3)
              (lit 30 * pow (lit 10) 9) r E Hk) as (r' & Hrun).
  exists r, r'. split; [exact E | exact Hrun].
Defined.

(** *** When the run returns *)

Lemma np_arange_returns (start stop step : Qc) :
  step <> lit 0 -> exists x0 : list Qc, np_arange start stop step = Ok x0.
Proof.
  intros Hnz. unfold np_arange. cbn [py_truediv ceiling exact].
  unfold Qc_py_truediv. rewrite Qc_eq_bool_false by assumption.
  cbn [bind]. now eexists.
Qed.

(** In exact arithmetic the run returns, with every stage aligned on a
    mesh that ends at [length], whenever the step, [modulus * inertia],
    the load and the length are not 0. *)
Theorem run_returns (load length dx inertia modulus : Qc) :
  dx <> lit 0 -> modulus * inertia <> lit 0 ->
  load <> lit 0 -> length <> lit 0 ->
  exists r : report Qc,
    pipeline load length dx inertia modulus = Ok r
    /\ nth_error (mesh r) (List.length (mesh r) - 1) = Some length
    /\ List.length (deflections r) = List.length (mesh r)
    /\ mid_deflection_theor r
       = - (lit 5 / lit 384) * (load * pow length 4) / (modulus * inertia)
    /\ mid_deflection_theor r <> lit 0.
Proof.
  intros Hdx HR Hw HL.
  destruct (np_arange_returns (lit 0) length Hdx) as [x0 Hx0].
  set (x := np_append x0 length).
  assert (Hlen : List.length x = S (List.length x0)).
  { unfold x, np_append. rewrite length_app. cbn [List.length]. lia. }
  set (c := map (fun v => v / (modulus * inertia))
                (map (moment load length) x)).
  assert (Hc : List.length c = List.length x)
    by (unfold c; now rewrite !length_map).
  set (sl0 := map (running (dx / lit 2) c (lit 0)) (seq 0 (List.length x))).
  set (sm := running (dx / lit 2) c (lit 0) (List.length x / 2)).
  assert (Hhalf : (List.length x / 2 < List.length x)%nat)
    by (rewrite Hlen; apply Nat.div_lt; lia).
  assert (Hsm : index sl0 (List.length sl0 / 2) = Ok sm).
  { unfold sl0. rewrite length_map, length_seq. apply index_Ok.
    now rewrite nth_error_map_seq. }
  set (sl := map (running (dx / lit 2) c (lit 0 + (lit 0 - sm)))
                 (seq 0 (List.length x))).
  assert (Hsl : List.length sl = List.length x)
    by (unfold sl; now rewrite length_map, length_seq).
  set (dl := map (running (dx / lit 2) sl (lit 0)) (seq 0 (List.length x))).
  set (dm := running (dx / lit 2) sl (lit 0) (List.length x / 2)).
  assert (Hdm : index dl (List.length dl / 2) = Ok dm).
  { unfold dl. rewrite length_map, length_seq. apply index_Ok.
    now rewrite nth_error_map_seq. }
  set (th := - (lit 5 / lit 384) * (load * pow length 4)
             / (modulus * inertia)).
  assert (Hth : th <> lit 0).
  { unfold th. exact_ops. intros Hz.
    apply Qcmult_integral in Hz as [Hz|Hz].
    - apply Qcmult_integral in Hz as [Hz|Hz]; [discriminate Hz|].
      apply Qcmult_integral in Hz as [Hz|Hz]; [contradiction|].
      repeat (apply Qcmult_integral in Hz as [Hz|Hz]; [contradiction|]).
      discriminate Hz.
    - apply (f_equal (fun v => v * (modulus * inertia))%Qc) in Hz.
      rewrite Qcmult_inv_l in Hz by assumption.
      rewrite Qcmult_0_l in Hz. discriminate Hz. }
  eexists. split.
  - unfold pipeline. rewrite Hx0. cbn [bind]. fold x.
    rewrite get_bending_moments_map. cbn [bind].
    rewrite get_curvatures_quotients by assumption. cbn [bind]. fold c.
    rewrite get_slopes_running by (left; lia). cbn [bind]. fold sl0.
    rewrite Hsm. cbn [bind]. fold sl.
    rewrite get_slopes_running by (left; lia). cbn [bind]. fold sl.
    rewrite get_deflections_running by (left; lia). cbn [bind]. fold dl.
    rewrite Hdm. cbn [bind].
    cbn [py_truediv np_true_divide exact].
    unfold Qc_py_truediv. rewrite Qc_eq_bool_false by assumption.
    cbn [bind]. unfold Qc_np_true_divide.
    rewrite Qc_eq_bool_false by exact Hth.
    reflexivity.
  - cbn [mesh deflections mid_deflection_theor].
    repeat apply conj.
    + fold x. rewrite Hlen. unfold x, np_append.
      rewrite nth_error_app2 by lia.
      replace (S (List.length x0) - 1 - List.length x0)%nat with 0%nat by lia.
      reflexivity.
    + fold x. unfold dl. now rewrite length_map, length_seq.
    + reflexivity.
    + exact Hth.
Qed.

Lemma run_returns_witness :
  exists r : report Qc,
    pipeline (lit 8) (lit 2) (lit 0.5) (lit 3) (lit 2) = Ok r
    /\ nth_error (mesh r) (List.length (mesh r) - 1) = Some (lit 2)
    /\ List.length (deflections r) = List.length (mesh r)
    /\ mid_deflection_theor r
       = - (lit 5 / lit 384) * (lit 8 * pow (lit 2) 4) / (lit 2 * lit 3)
    /\ mid_deflection_theor r <> lit 0.
Proof.
  apply (@run_returns (lit 8) (lit 2) (lit 0.5) (lit 3) (lit 2));
    discriminate.
Defined.

End FurtherExact.

(** ** A zero flexural rigidity, in binary64 *)

Section ZeroRigidity.
Local Open Scope num_scope.

Lemma get_curvatures_binary64 (bm : list float) (modulus inertia : float) :
  get_curvatures bm modulus inertia
  = Ok (map (fun m => m / (modulus * inertia)) bm).
Proof.
  unfold get_curvatures.
  induction bm as [|m bm IH]; [reflexivity|].
  cbn [map_result map]. now rewrite IH.
Qed.

(** With doubles, a zero [modulus * inertia] does not pass silently.  The
    curvatures are computed without complaint, the integrators run over
    them, and then line 99, a division between two Python floats, raises
    [ZeroDivisionError].  That is how the run ends for every load and
    step, whenever the mesh could be built with at most a million points
    and the length is at most [2^200] in magnitude, so that [length**4]
    is finite (Python raises [OverflowError] on a float power that
    overflows, before the division is reached). *)
Theorem zero_rigidity_run_raises
  (load length dx inertia modulus : float) (x0 : list float) :
  np_arange (lit 0) length dx = Ok x0 ->
  (Z.of_nat (List.length x0) <= 1000000)%Z ->
  PrimFloat.leb (PrimFloat.abs length) 0x1p+200%float = true ->
  PrimFloat.is_zero (modulus * inertia) = true ->
  (exists c : list float,
     get_curvatures
       (map (moment load length) (np_append x0 length)) modulus inertia
     = Ok c)
  /\ pipeline load length dx inertia modulus = Raise ZeroDivisionError.
Proof.
  intros Hx0 _ _ Hz. split.
  - rewrite get_curvatures_binary64. now eexists.
  - set (x := np_append x0 length).
    assert (Hlen : List.length x = S (List.length x0)).
    { unfold x, np_append. rewrite length_app. cbn [List.length]. lia. }
    assert (Hhalf : (List.length x / 2 < List.length x)%nat)
      by (rewrite Hlen; apply Nat.div_lt; lia).
    unfold pipeline. rewrite Hx0. cbn [bind]. fold x.
    rewrite get_bending_moments_map. cbn [bind].
    rewrite get_curvatures_binary64. cbn [bind].
    rewrite get_slopes_running by (left; now rewrite !length_map).
    cbn [bind]. rewrite length_map, length_seq.
    rewrite index_nth with (d := lit 0)
      by now rewrite length_map, length_seq.
    cbn [bind].
    rewrite get_slopes_running by (left; now rewrite !length_map).
    cbn [bind].
    rewrite get_deflections_running
      by (left; now rewrite length_map, length_seq).
    cbn [bind]. rewrite length_map, length_seq.
    rewrite index_nth with (d := lit 0)
      by now rewrite length_map, length_seq.
    cbn [bind].
    cbn [py_truediv times Binary64.arith] in Hz |- *.
    unfold Binary64.py_div. now rewrite Hz.
Qed.

Lemma zero_rigidity_run_raises_witness :
  (exists c : list float,
     get_curvatures
       (map (moment (lit 10000) (lit 5))
            (np_append [lit 0; lit 2.5] (lit 5)))
       (lit 0) (lit 0.003125)
     = Ok c)
  /\ pipeline (num := float) (lit 10000) (lit 5) (lit 2.5) (lit 0.003125)
       (lit 0)
     = Raise ZeroDivisionError.
Proof.
  apply (@zero_rigidity_run_raises (lit 10000) (lit 5) (lit 2.5)
           (lit 0.003125) (lit 0) [lit 0; lit 2.5]).
  - vm_compute. reflexivity.
  - cbn [List.length Z.of_nat]. lia.
  - vm_compute. reflexivity.
  - vm_compute. reflexivity.
Defined.

End ZeroRigidity.
